(** * game-server-base (gsb): command dispatch and parser attachment

    A shallow embedding of [gsb/server.py] ([Server.handle_line] and the
    hooks it calls) and of [gsb/protocol.py] (the [Protocol] class: the
    [parser] property, [lineReceived], [connectionMade], [connectionLost],
    [notify]), with the properties of the dispatch loop and of the parser
    setter proved over it.

    Python code that can raise is a computation in a state-and-exception
    monad; user code (command handlers, guards, overridden hooks, parser
    hooks) is an arbitrary computation of that monad over the objects it
    is handed.  What the framework itself does (which handler it calls,
    with which arguments, what it logs) is recorded in a trace that user
    code cannot touch. *)

From Stdlib Require Import String Ascii Strings.Byte NArith ZArith Bool Lia List.
Import ListNotations.
Open Scope list_scope.

(* ================================================================== *)
(** ** Python values, exceptions and the monad of effectful code *)

(** A Python [str]: a sequence of Unicode code points. *)
Definition str := list N.

(** A Python [bytes] object. *)
Definition bytes := list byte.

(** A [str] literal of the source, written as a Rocq string. *)
Definition lit (s : string) : str :=
  map N_of_ascii (list_ascii_of_string s).

(** What a [raise] can carry, by the classes [handle_line]'s [except]
    clauses tell apart: [DontStopException] (and its subclasses), every
    other instance of [Exception], and the instances of [BaseException]
    that are not instances of [Exception] ([SystemExit],
    [KeyboardInterrupt], [GeneratorExit]). *)
Inductive PyExc : Type :=
| DontStopException
| ExceptionOf (cls : string)
| BaseExceptionOf (cls : string).

(** The outcome of running Python code: a value, or a raised exception. *)
Inductive Res (A : Type) : Type :=
| Ok (a : A)
| Raise (e : PyExc).
Arguments Ok {A} a.
Arguments Raise {A} e.

(** Effectful code over a store [S]: the store is returned on both
    outcomes, since the writes made before a [raise] stay. *)
Definition M (S A : Type) : Type := S -> Res A * S.

Definition ret {S A : Type} (a : A) : M S A := fun s => (Ok a, s).

Definition raise {S A : Type} (e : PyExc) : M S A := fun s => (Raise e, s).

Definition bind {S A B : Type} (m : M S A) (k : A -> M S B) : M S B :=
  fun s =>
    match m s with
    | (Ok a, s1) => k a s1
    | (Raise e, s1) => (Raise e, s1)
    end.

Notation "x <- m ;; k" := (bind m (fun x => k))
  (at level 61, m at next level, right associativity).
Notation "m ;;; k" := (bind m (fun _ => k))
  (at level 61, right associativity).

(** [try: body  except ...: ...]: [handler e] is the [except] clause that
    catches [e], or [None] when no clause does and [e] propagates. *)
Definition try_except {S A : Type} (body : M S A)
    (handler : PyExc -> option (M S A)) : M S A :=
  fun s =>
    match body s with
    | (Ok a, s1) => (Ok a, s1)
    | (Raise e, s1) =>
        match handler e with
        | Some h => h s1
        | None => (Raise e, s1)
        end
    end.

(** An attribute that an object may lack: reading a missing attribute
    raises [AttributeError]. *)
Inductive Attr (A : Type) : Type :=
| Missing
| Has (a : A).
Arguments Missing {A}.
Arguments Has {A} a.

Definition AttributeError : PyExc := ExceptionOf "AttributeError".

Definition getattr {S A : Type} (a : Attr A) : M S A :=
  match a with
  | Has v => ret v
  | Missing => raise AttributeError
  end.

(* ================================================================== *)
(** ** The codecs behind [bytes.decode] and [str.encode]

    [Protocol.lineReceived] calls [line.decode( *self.decode_args)] and
    [Server.notify] calls [text.encode()].  Both are Python built-ins;
    they are modelled for the codecs [utf-8] (what
    [sys.getdefaultencoding()] returns), [ascii] and [latin-1], and for
    the error handlers [strict], [ignore] and [replace]. *)

Inductive Encoding : Type := UTF8 | ASCII | Latin1.

Inductive ErrorHandler : Type := Strict | Ignore | Replace.

Definition UnicodeDecodeError : PyExc := ExceptionOf "UnicodeDecodeError".
Definition UnicodeEncodeError : PyExc := ExceptionOf "UnicodeEncodeError".

(** One decoded code point in front of the rest of the text. *)
Definition emit_char (c : N) (rest : Res str) : Res str :=
  match rest with
  | Ok s => Ok (c :: s)
  | Raise e => Raise e
  end.

(** What the error handler makes of one undecodable run of bytes, [rest]
    being the decoding of what follows the run. *)
Definition decode_error (errors : ErrorHandler) (rest : Res str) : Res str :=
  match errors with
  | Strict => Raise UnicodeDecodeError
  | Ignore => rest
  | Replace => emit_char 0xFFFD rest
  end.

(** A UTF-8 continuation byte, [10xxxxxx]. *)
Definition is_cont (b : N) : bool := ((0x80 <=? b) && (b <=? 0xBF))%N.

(** The UTF-8 decoder.  An undecodable run is the lead byte when it cannot
    start a sequence, the bytes read so far when the next one cannot
    continue the sequence (too-long forms and surrogates are refused at
    the second byte), and all that is left when the input ends inside a
    sequence. *)
Fixpoint utf8_decode (errors : ErrorHandler) (bs : bytes) : Res str :=
  let bad := decode_error errors in
  match bs with
  | [] => Ok []
  | b0 :: t0 =>
      let c0 := Byte.to_N b0 in
      if (c0 <? 0x80)%N then emit_char c0 (utf8_decode errors t0)
      else if (c0 <? 0xC2)%N then bad (utf8_decode errors t0)
      else if (c0 <? 0xE0)%N then
        match t0 with
        | [] => bad (Ok [])
        | b1 :: t1 =>
            let c1 := Byte.to_N b1 in
            if is_cont c1
            then emit_char ((c0 - 0xC0) * 64 + (c1 - 0x80))%N
                           (utf8_decode errors t1)
            else bad (utf8_decode errors t0)
        end
      else if (c0 <? 0xF0)%N then
        match t0 with
        | [] => bad (Ok [])
        | b1 :: t1 =>
            let c1 := Byte.to_N b1 in
            if negb (is_cont c1)
               || (if (c1 <? 0xA0)%N then (c0 =? 0xE0)%N else (c0 =? 0xED)%N)
            then bad (utf8_decode errors t0)
            else
              match t1 with
              | [] => bad (Ok [])
              | b2 :: t2 =>
                  let c2 := Byte.to_N b2 in
                  if is_cont c2
                  then emit_char
                         ((c0 - 0xE0) * 4096 + (c1 - 0x80) * 64 + (c2 - 0x80))%N
                         (utf8_decode errors t2)
                  else bad (utf8_decode errors t1)
              end
        end
      else if (c0 <? 0xF5)%N then
        match t0 with
        | [] => bad (Ok [])
        | b1 :: t1 =>
            let c1 := Byte.to_N b1 in
            if negb (is_cont c1)
               || (if (c1 <? 0x90)%N then (c0 =? 0xF0)%N else (c0 =? 0xF4)%N)
            then bad (utf8_decode errors t0)
            else
              match t1 with
              | [] => bad (Ok [])
              | b2 :: t2 =>
                  let c2 := Byte.to_N b2 in
                  if negb (is_cont c2) then bad (utf8_decode errors t1)
                  else
                    match t2 with
                    | [] => bad (Ok [])
                    | b3 :: t3 =>
                        let c3 := Byte.to_N b3 in
                        if is_cont c3
                        then emit_char
                               ((c0 - 0xF0) * 262144 + (c1 - 0x80) * 4096
                                + (c2 - 0x80) * 64 + (c3 - 0x80))%N
                               (utf8_decode errors t3)
                        else bad (utf8_decode errors t2)
                    end
              end
        end
      else bad (utf8_decode errors t0)
  end.

(** The ASCII decoder: a byte above 127 is an undecodable run of its own. *)
Fixpoint ascii_decode (errors : ErrorHandler) (bs : bytes) : Res str :=
  match bs with
  | [] => Ok []
  | b0 :: t0 =>
      let c0 := Byte.to_N b0 in
      if (c0 <? 0x80)%N then emit_char c0 (ascii_decode errors t0)
      else decode_error errors (ascii_decode errors t0)
  end.

(** The Latin-1 decoder: every byte is its own code point. *)
Definition latin1_decode (bs : bytes) : Res str := Ok (map Byte.to_N bs).

(** [bs.decode(encoding, errors)]. *)
Definition decode (args : Encoding * ErrorHandler) (bs : bytes) : Res str :=
  match fst args with
  | UTF8 => utf8_decode (snd args) bs
  | ASCII => ascii_decode (snd args) bs
  | Latin1 => latin1_decode bs
  end.

(** A decode policy that resolves undecodable bytes instead of raising. *)
Definition lossy (args : Encoding * ErrorHandler) : bool :=
  match snd args with
  | Strict => false
  | Ignore | Replace => true
  end.

(** The byte of value [n mod 256]. *)
Definition byte_of (n : N) : byte :=
  match Byte.of_N (n mod 256) with
  | Some b => b
  | None => x00
  end.

(** The UTF-8 form of one code point; a surrogate has none. *)
Definition utf8_encode_char (c : N) : option bytes :=
  if (c <? 0x80)%N then Some [byte_of c]
  else if (c <? 0x800)%N then
    Some [byte_of (0xC0 + c / 64); byte_of (0x80 + c mod 64)]
  else if ((0xD800 <=? c) && (c <=? 0xDFFF))%N then None
  else if (c <? 0x10000)%N then
    Some [byte_of (0xE0 + c / 4096); byte_of (0x80 + (c / 64) mod 64);
          byte_of (0x80 + c mod 64)]
  else
    Some [byte_of (0xF0 + c / 262144); byte_of (0x80 + (c / 4096) mod 64);
          byte_of (0x80 + (c / 64) mod 64); byte_of (0x80 + c mod 64)].

(** [text.encode()]: UTF-8 with the [strict] handler. *)
Fixpoint encode (text : str) : Res bytes :=
  match text with
  | [] => Ok []
  | c :: rest =>
      match utf8_encode_char c, encode rest with
      | Some bs, Ok out => Ok (bs ++ out)
      | None, _ => Raise UnicodeEncodeError
      | _, Raise e => Raise e
      end
  end.


(* ================================================================== *)
(** ** The objects of [gsb] *)

(** A connection, by the identity of its [Protocol] object. *)
Definition ConnId : Type := nat.

(** A parser object, by its identity. *)
Definition ParserId : Type := nat.

(** A [logging] logger, by the host and port its name is made of. *)
Definition Logger : Type := (string * Z)%type.

(** [gsb.Protocol]: the attributes of lines 27-40, the object's identity,
    and [logger], an attribute that only [connectionMade] sets.  The
    [server] attribute is the server the methods below are given. *)
Record Protocol : Type := mkProtocol {
  ident : ConnId;
  host : string;
  port : Z;
  _parser : option ParserId;
  encode_args : Encoding * ErrorHandler;
  decode_args : Encoding * ErrorHandler;
  logger : Attr Logger
}.

(** [sys.getdefaultencoding()]. *)
Definition getdefaultencoding : Encoding := UTF8.

(** [Protocol(server, host, port, parser)]: [_parser] has no default and
    no validator, so [parser] may be [None]. *)
Definition Protocol_new (ident : ConnId) (host : string) (port : Z)
    (parser : option ParserId) : Protocol :=
  {| ident := ident; host := host; port := port;
     _parser := parser;
     encode_args := (getdefaultencoding, Replace);
     decode_args := (getdefaultencoding, Ignore);
     logger := Missing |}.

(** The [parser] property: lines 42-45. *)
Definition Protocol_parser (self : Protocol) : option ParserId := _parser self.

(** [self._parser = value] on the object [p]. *)
Definition with_parser (p : Protocol) (value : option ParserId) : Protocol :=
  {| ident := ident p; host := host p; port := port p; _parser := value;
     encode_args := encode_args p; decode_args := decode_args p;
     logger := logger p |}.

(** [==] on the pairs [encode_args] and [decode_args]: the codec and
    the error handler are the same.  A codec stands here for one
    spelling of its name. *)
Definition Encoding_eqb (a b : Encoding) : bool :=
  match a, b with
  | UTF8, UTF8 | ASCII, ASCII | Latin1, Latin1 => true
  | _, _ => false
  end.

Definition ErrorHandler_eqb (a b : ErrorHandler) : bool :=
  match a, b with
  | Strict, Strict | Ignore, Ignore | Replace, Replace => true
  | _, _ => false
  end.

Definition args_eqb (a b : Encoding * ErrorHandler) : bool :=
  Encoding_eqb (fst a) (fst b) && ErrorHandler_eqb (snd a) (snd b).

(** Pure code that may raise, run inside effectful code. *)
Definition of_res {S A : Type} (r : Res A) : M S A := fun s => (r, s).

(** Code that returns, whatever the store it is run from. *)
Definition returns {S A : Type} (f : M S A) : Prop :=
  forall s, exists a s1, f s = (Ok a, s1).

(** A surrogate code point, which UTF-8 cannot encode. *)
Definition surrogate (c : N) : bool := ((0xD800 <=? c) && (c <=? 0xDFFF))%N.

(** A Unicode scalar value: a code point that a Python [str] can hold
    and that is not a surrogate. *)
Definition scalar (c : N) : bool := (c <=? 0x10FFFF)%N && negb (surrogate c).

Section GSB.

(** The state that user code and the transport act on. *)
Variable W : Type.

(** [re]'s patterns and match objects, and [re.search]. *)
Variables Regexp Match : Type.
Variable search : Regexp -> str -> option Match.

(** [connection.sendLine(line)], of Twisted's [LineReceiver] (the tests
    replace it with a method that raises). *)
Variable sendLine : ConnId -> bytes -> M W unit.

(** The values that [%] formats into a text, and [text % operand]. *)
Variable FmtArg : Type.

Inductive FmtOperand : Type :=
| Tuple (args : list FmtArg)
| Dict (kwargs : list (str * FmtArg)).

Variable percent : str -> FmtOperand -> Res str.

(** [gsb.Caller], by the attributes [server.py] reads and writes:
    [Caller(connection, text=line)] leaves [match] and [exception] at
    [None]. *)
Record Caller : Type := mkCaller {
  connection : option ConnId;
  text : option str;
  match_ : option Match;
  exception : option PyExc
}.

Definition Caller_new (connection : option ConnId) (text : option str) : Caller :=
  {| connection := connection; text := text;
     match_ := None; exception := None |}.

(** User code called with a [Caller]: it may write to the [Caller] it is
    handed and to the world, return or raise. *)
Definition Code (A : Type) : Type := M (Caller * W) A.

(** User code called with a connection (a parser's hooks, and the
    server's [on_connect] and [on_disconnect], whose [Caller] holds
    nothing but the connection): it may write to the [Protocol] object
    and to the world, return or raise. *)
Definition ConnCode (A : Type) : Type := M (Protocol * W) A.

(** [gsb.Command], by the attributes [handle_line] reads. *)
Record Command : Type := mkCommand {
  func : Code unit;
  regexp : Regexp;
  allowed : option (Code bool)
}.

(** A parser object, by the methods [protocol.py] calls:
    [on_attach(connection, old_parser)],
    [on_detach(connection, new_parser)] and
    [handle_line(connection, line)]. *)
Record Parser : Type := mkParser {
  on_attach : option ParserId -> ConnCode unit;
  on_detach : option ParserId -> ConnCode unit;
  handle_line : str -> ConnCode unit
}.

(** The parser objects of the program. *)
Variable parsers : ParserId -> Parser.

(** A server object: its command list, the methods of [Server] that a
    subclass may override, and [default_parser], an attribute that
    [protocol.py] reads and [server.py] does not set.  The list
    [connections] changes over time and is part of the store. *)
Record Server : Type := mkServer {
  commands : list Command;
  on_command : Code bool;
  on_error : Code unit;
  huh : Code unit;
  on_connect : ConnCode unit;
  on_disconnect : ConnCode unit;
  default_parser : Attr (option ParserId)
}.

(* ------------------------------------------------------------------ *)
(** *** [Server]: notification *)

(** [Server.format_text]: lines 137-143. *)
Definition Server_format_text (text : str) (args : list FmtArg)
    (kwargs : list (str * FmtArg)) : Res str :=
  let r1 := match args with
            | [] => Ok text
            | _ => percent text (Tuple args)
            end in
  match r1 with
  | Raise e => Raise e
  | Ok text1 =>
      match kwargs with
      | [] => Ok text1
      | _ => percent text1 (Dict kwargs)
      end
  end.

(** [Server.notify]: lines 145-154. *)
Definition Server_notify (connection : option ConnId) (text : str)
    (args : list FmtArg) (kwargs : list (str * FmtArg)) : M W unit :=
  match connection with
  | None => ret tt
  | Some con =>
      formatted <- of_res (Server_format_text text args kwargs) ;;
      payload <- of_res (encode formatted) ;;
      sendLine con payload
  end.

(** Code that acts on the world only, run where an object [X] is in the
    store as well. *)
Definition on_world {X A : Type} (m : M W A) : M (X * W) A :=
  fun xw =>
    match m (snd xw) with
    | (r, w1) => (r, (fst xw, w1))
    end.

(** [Server.on_command]: lines 88-90. *)
Definition Server_on_command : Code bool := ret true.

(** [Server.on_error]: lines 92-96. *)
Definition Server_on_error : Code unit :=
  fun cw =>
    on_world (Server_notify (connection (fst cw))
                (lit "There was an error with your command.") [] []) cw.

(** [Server.huh]: lines 133-135. *)
Definition Server_huh : Code unit :=
  fun cw =>
    on_world (Server_notify (connection (fst cw))
                (lit "I don't understand that.") [] []) cw.

(** [Server.on_connect] and [Server.on_disconnect]: lines 98-104. *)
Definition Server_on_connect : ConnCode unit := ret tt.
Definition Server_on_disconnect : ConnCode unit := ret tt.

(** An instance of the class [Server] as [server.py] defines it: no
    method overridden, and no [default_parser] attribute. *)
Definition Server_base (commands : list Command) : Server :=
  {| commands := commands;
     on_command := Server_on_command;
     on_error := Server_on_error;
     huh := Server_huh;
     on_connect := Server_on_connect;
     on_disconnect := Server_on_disconnect;
     default_parser := Missing |}.

(* ------------------------------------------------------------------ *)
(** *** [Server.handle_line] *)

(** What [logger.exception] is called with in [handle_line]: the command
    (by its position in [commands]), and the exception. *)
Inductive LogRecord : Type :=
| CommandThrew (i : nat)
| Thrown (e : PyExc).

(** What [handle_line] does, in the order it does it.  A command is named
    by its position in [self.commands]; a call is recorded with the
    [Caller] as it is when the call is made. *)
Inductive Event : Type :=
| EvOnCommand (c : Caller)
| EvSearch (i : nat)
| EvAllowed (i : nat) (c : Caller)
| EvFunc (i : nat) (c : Caller)
| EvLogException (r : LogRecord)
| EvOnError (c : Caller)
| EvHuh (c : Caller).

(** The store of one [handle_line] call: its [caller] object, the world,
    and the trace so far (oldest event first). *)
Record DState : Type := mkDState {
  caller : Caller;
  world : W;
  trace : list Event
}.

Definition emit (ev : Event) : M DState unit :=
  fun s => (Ok tt, {| caller := caller s; world := world s;
                      trace := trace s ++ [ev] |}).

Definition get_caller : M DState Caller := fun s => (Ok (caller s), s).

(** [caller.match = m]. *)
Definition set_match (m : option Match) : M DState unit :=
  fun s =>
    (Ok tt, {| caller := {| connection := connection (caller s);
                            text := text (caller s);
                            match_ := m;
                            exception := exception (caller s) |};
               world := world s; trace := trace s |}).

(** [caller.exception = e]. *)
Definition set_exception (e : PyExc) : M DState unit :=
  fun s =>
    (Ok tt, {| caller := {| connection := connection (caller s);
                            text := text (caller s);
                            match_ := match_ (caller s);
                            exception := Some e |};
               world := world s; trace := trace s |}).

(** A call of user code with [caller]. *)
Definition call {A : Type} (f : Code A) : M DState A :=
  fun s =>
    match f (caller s, world s) with
    | (r, (c1, w1)) => (r, {| caller := c1; world := w1; trace := trace s |})
    end.

(** The test of lines 113-115: the search result is on [caller] already;
    the guard is called only when the search succeeded and a guard is
    set. *)
Definition eligible (i : nat) (cmd : Command) : M DState bool :=
  c <- get_caller ;;
  match match_ c with
  | None => ret false
  | Some _ =>
      match allowed cmd with
      | None => ret true
      | Some guard => emit (EvAllowed i c) ;;; call guard
      end
  end.

(** How one turn of the [for] loop ends. *)
Inductive Ctl : Type := Break | Continue.

(** Lines 116-128: the [try] statement and the [break] after it. *)
Definition run_command (srv : Server) (i : nat) (cmd : Command) : M DState Ctl :=
  try_except
    (c <- get_caller ;;
     emit (EvFunc i c) ;;;
     call (func cmd) ;;;
     ret Break)
    (fun e =>
       match e with
       | DontStopException => Some (ret Continue)
       | ExceptionOf _ =>
           Some (set_exception e ;;;
                 emit (EvLogException (CommandThrew i)) ;;;
                 emit (EvLogException (Thrown e)) ;;;
                 c <- get_caller ;;
                 emit (EvOnError c) ;;;
                 call (on_error srv) ;;;
                 ret Break)
       | BaseExceptionOf _ => None
       end).

(** Lines 112-115, for the command at position [i]: the search, its
    result stored on [caller], and the test. *)
Definition try_match (line : str) (i : nat) (cmd : Command) : M DState bool :=
  emit (EvSearch i) ;;;
  set_match (search (regexp cmd) line) ;;;
  eligible i cmd.

(** Lines 111-128: the [for] loop over [self.commands], from position [i]
    on.  It returns [true] when it was left by [break], [false] when the
    list ran out (so that the [else] clause runs).  The command list is
    the one the loop started with: user code that changes
    [self.commands] during the pass is outside the model. *)
Fixpoint for_commands (srv : Server) (line : str) (i : nat)
    (cmds : list Command) : M DState bool :=
  match cmds with
  | [] => ret false
  | cmd :: rest =>
      ok <- try_match line i cmd ;;
      if ok then
        ctl <- run_command srv i cmd ;;
        match ctl with
        | Break => ret true
        | Continue => for_commands srv line (S i) rest
        end
      else for_commands srv line (S i) rest
  end.

(** Lines 129-131: the [else] clause of the loop. *)
Definition not_understood (srv : Server) : M DState unit :=
  set_match None ;;;
  c <- get_caller ;;
  emit (EvHuh c) ;;;
  call (huh srv).

(** Line 110: the call of the [on_command] hook. *)
Definition gate (srv : Server) : M DState bool :=
  c <- get_caller ;;
  emit (EvOnCommand c) ;;;
  call (on_command srv).

(** Lines 111-131: the loop and its [else] clause. *)
Definition loop (srv : Server) (line : str) (i : nat) (cmds : list Command)
    : M DState unit :=
  broke <- for_commands srv line i cmds ;;
  if broke then ret tt else not_understood srv.

(** Line 109: the store in which the rest of [handle_line] runs, with
    [caller = Caller(connection, text=line)] and nothing done yet. *)
Definition start (connection : option ConnId) (line : str) (w : W) : DState :=
  {| caller := Caller_new connection (Some line); world := w; trace := [] |}.

(** [Server.handle_line]: lines 106-131, run from the world [w]. *)
Definition Server_handle_line (srv : Server) (connection : option ConnId)
    (line : str) (w : W) : Res unit * DState :=
  (go <- gate srv ;;
   if go then loop srv line 0 (commands srv) else ret tt)
  (start connection line w).

(** The loop passes over the commands [cmds], from position [i] on: each
    is tried and found not eligible (its pattern is not found in the
    line, or its guard returns false).  The result is the store that the
    searches and the guards leave. *)
Fixpoint pass_over (line : str) (i : nat) (cmds : list Command) (s : DState)
    : option DState :=
  match cmds with
  | [] => Some s
  | cmd :: rest =>
      match try_match line i cmd s with
      | (Ok false, s1) => pass_over line (S i) rest s1
      | _ => None
      end
  end.

(** The positions of the commands whose handler was called, in order. *)
Definition funcs_called (tr : list Event) : list nat :=
  flat_map (fun ev => match ev with EvFunc i _ => [i] | _ => [] end) tr.

(** The positions of the commands whose pattern was searched, in order. *)
Definition searched (tr : list Event) : list nat :=
  flat_map (fun ev => match ev with EvSearch i => [i] | _ => [] end) tr.

(** The [Caller]s that [on_error] was called with, in order. *)
Definition on_error_calls (tr : list Event) : list Caller :=
  flat_map (fun ev => match ev with EvOnError c => [c] | _ => [] end) tr.

(** The [Caller]s that [huh] was called with, in order. *)
Definition huh_calls (tr : list Event) : list Caller :=
  flat_map (fun ev => match ev with EvHuh c => [c] | _ => [] end) tr.

(** What was logged, in order. *)
Definition logged (tr : list Event) : list LogRecord :=
  flat_map (fun ev => match ev with EvLogException r => [r] | _ => [] end) tr.

(** Events among which no handler and no hook is called and nothing is
    logged. *)
Definition uneventful (evs : list Event) : Prop :=
  funcs_called evs = [] /\ on_error_calls evs = []
  /\ huh_calls evs = [] /\ logged evs = [].

(** The store after the call of a handler that left the [Caller] as [c]
    and the world as [w]: the call is on record. *)
Definition after_func (i : nat) (s : DState) (c : Caller) (w : W) : DState :=
  {| caller := c; world := w; trace := trace s ++ [EvFunc i (caller s)] |}.

(** [caller.exception = e] on the [Caller] [c]. *)
Definition with_exception (c : Caller) (e : PyExc) : Caller :=
  {| connection := connection c; text := text c;
     match_ := match_ c; exception := Some e |}.

(** [caller.match = m] on the [Caller] [c]. *)
Definition with_match (c : Caller) (m : option Match) : Caller :=
  {| connection := connection c; text := text c;
     match_ := m; exception := exception c |}.

(** What [handle_line] does once the loop has found a command to run. *)
Definition from_command (srv : Server) (line : str) (i : nat) (cmd : Command)
    (post : list Command) : M DState unit :=
  broke <- (ctl <- run_command srv i cmd ;;
            match ctl with
            | Break => ret true
            | Continue => for_commands srv line (S i) post
            end) ;;
  if broke then ret tt else not_understood srv.

(* ------------------------------------------------------------------ *)
(** *** [Server]: registration, broadcast, and what the properties of
    the loop are stated with *)

(** [Server.is_banned]: lines 48-50. *)
Definition Server_is_banned (host : string) : bool := false.

(** [Server.command]: lines 162-174.  [self.command_class(func, ...)]
    builds the command ([gsb/command.py] is not among the sources; the
    command is given here by the attributes that [handle_line] reads),
    the command is appended to [self.commands], and it is returned.
    The record that [logger.info] writes (lines 168-171) goes to the
    module's logger, which no method reads, and is not kept.  The
    result is the server after the call, and the command. *)
Definition Server_command (srv : Server) (func : Code unit)
    (regexp : Regexp) (allowed : option (Code bool)) : Server * Command :=
  let cmd := {| func := func; regexp := regexp; allowed := allowed |} in
  ({| commands := commands srv ++ [cmd];
      on_command := on_command srv;
      on_error := on_error srv;
      huh := huh srv;
      on_connect := on_connect srv;
      on_disconnect := on_disconnect srv;
      default_parser := default_parser srv |}, cmd).

(** Lines 159-160: the [for] loop of [Server.broadcast], over the
    connections [cons], with the text that [format_text] made. *)
Fixpoint notify_each (cons : list ConnId) (text : str) : M W unit :=
  match cons with
  | [] => ret tt
  | con :: rest =>
      Server_notify (Some con) text [] [] ;;; notify_each rest text
  end.

(** [Server.broadcast]: lines 156-160, [cons] being
    [self.connections]. *)
Definition Server_broadcast (cons : list ConnId) (text : str)
    (args : list FmtArg) (kwargs : list (str * FmtArg)) : M W unit :=
  formatted <- of_res (Server_format_text text args kwargs) ;;
  notify_each cons formatted.

(** The bytes [payload] sent to each of [cons] in turn, up to the first
    [sendLine] that raises. *)
Fixpoint send_each (cons : list ConnId) (payload : bytes) : M W unit :=
  match cons with
  | [] => ret tt
  | con :: rest => sendLine con payload ;;; send_each rest payload
  end.

(** The loop declines the commands [cmds], from position [i] on: each is
    tried and is either not eligible, or eligible with a handler that
    raises [DontStopException].  The result is the store left. *)
Fixpoint decline (srv : Server) (line : str) (i : nat)
    (cmds : list Command) (s : DState) : option DState :=
  match cmds with
  | [] => Some s
  | cmd :: rest =>
      match try_match line i cmd s with
      | (Ok false, s1) => decline srv line (S i) rest s1
      | (Ok true, s1) =>
          match run_command srv i cmd s1 with
          | (Ok Continue, s2) => decline srv line (S i) rest s2
          | _ => None
          end
      | _ => None
      end
  end.

(** A command whose guard, if it has one, returns, and whose handler
    raises nothing outside [Exception]. *)
Definition tame (cmd : Command) : Prop :=
  (forall guard, allowed cmd = Some guard -> returns guard)
  /\ (forall cw cls cw1, func cmd cw <> (Raise (BaseExceptionOf cls), cw1)).

(** What a run of the loop over [cmds], from position [i] on, leaves on
    record when it tried [k] of them. *)
Definition loop_record (line : str) (i : nat)
    (cmds : list Command) (evs : list Event) (k : nat) : Prop :=
  k <= length cmds
  /\ searched evs = seq i k
  /\ huh_calls evs = []
  /\ length (on_error_calls evs) <= 1
  /\ length (logged evs) = 2 * length (on_error_calls evs)
  /\ NoDup (funcs_called evs)
  /\ (forall j, In j (funcs_called evs) -> i <= j < i + k)
  /\ (forall j c, In (EvFunc j c) evs ->
        exists cmd, nth_error cmds (j - i) = Some cmd
                    /\ search (regexp cmd) line <> None
                    /\ (allowed cmd = None ->
                        match_ c = search (regexp cmd) line)).

(* ------------------------------------------------------------------ *)
(** *** [gsb/protocol.py]: the [Protocol] methods *)

(** What a [Protocol] method does, in the order it does it: the hooks it
    calls with their second argument, and what it logs. *)
Inductive PEvent : Type :=
| EvDetach (p : ParserId) (new_parser : option ParserId)
| EvAttach (p : ParserId) (old_parser : option ParserId)
| EvWarning (lg : Logger) (fallback : option ParserId)
| EvInfo (lg : Logger) (reason : str)
| EvHandleLine (p : ParserId) (line : str)
| EvOnConnect
| EvOnDisconnect.

(** The store of a [Protocol] method: the object [self], the server's
    [connections] list, the world, and the trace so far. *)
Record PState : Type := mkPState {
  self : Protocol;
  connections : list ConnId;
  pworld : W;
  ptrace : list PEvent
}.

Definition pemit (ev : PEvent) : M PState unit :=
  fun s => (Ok tt, {| self := self s; connections := connections s;
                      pworld := pworld s; ptrace := ptrace s ++ [ev] |}).

Definition get_self : M PState Protocol := fun s => (Ok (self s), s).

(** [self._parser = value]. *)
Definition put_parser (value : option ParserId) : M PState unit :=
  fun s =>
    (Ok tt, {| self := {| ident := ident (self s); host := host (self s);
                          port := port (self s); _parser := value;
                          encode_args := encode_args (self s);
                          decode_args := decode_args (self s);
                          logger := logger (self s) |};
               connections := connections s;
               pworld := pworld s; ptrace := ptrace s |}).

(** [self.logger = lg]. *)
Definition put_logger (lg : Logger) : M PState unit :=
  fun s =>
    (Ok tt, {| self := {| ident := ident (self s); host := host (self s);
                          port := port (self s); _parser := _parser (self s);
                          encode_args := encode_args (self s);
                          decode_args := decode_args (self s);
                          logger := Has lg |};
               connections := connections s;
               pworld := pworld s; ptrace := ptrace s |}).

Definition put_connections (cs : list ConnId) : M PState unit :=
  fun s => (Ok tt, {| self := self s; connections := cs;
                      pworld := pworld s; ptrace := ptrace s |}).

(** A call of user code with the connection [self]. *)
Definition pcall {A : Type} (f : ConnCode A) : M PState A :=
  fun s =>
    match f (self s, pworld s) with
    | (r, (p1, w1)) =>
        (r, {| self := p1; connections := connections s;
               pworld := w1; ptrace := ptrace s |})
    end.

(** [p.on_detach(self, new_parser)]. *)
Definition call_on_detach (p : ParserId) (new_parser : option ParserId)
    : M PState unit :=
  pemit (EvDetach p new_parser) ;;; pcall (on_detach (parsers p) new_parser).

(** [p.on_attach(self, old_parser)]; [None] has no such method. *)
Definition call_on_attach (p : option ParserId) (old_parser : option ParserId)
    : M PState unit :=
  match p with
  | None => raise AttributeError
  | Some p => pemit (EvAttach p old_parser) ;;;
              pcall (on_attach (parsers p) old_parser)
  end.

(** Lines 53-58: the value to store, with the fallback to
    [self.server.default_parser] and its warning when [value] is [None]. *)
Definition or_default (srv : Server) (value : option ParserId)
    : M PState (option ParserId) :=
  match value with
  | Some _ => ret value
  | None =>
      fallback <- getattr (default_parser srv) ;;
      me <- get_self ;;
      lg <- getattr (logger me) ;;
      shown <- getattr (default_parser srv) ;;
      pemit (EvWarning lg shown) ;;;
      ret fallback
  end.

(** The setter of the [parser] property: lines 47-60. *)
Definition Protocol_set_parser (srv : Server) (value : option ParserId)
    : M PState unit :=
  me <- get_self ;;
  let old_parser := _parser me in
  match old_parser with
  | Some old => call_on_detach old value
  | None => ret tt
  end ;;;
  value1 <- or_default srv value ;;
  put_parser value1 ;;;
  call_on_attach value1 old_parser.

(** [Protocol.lineReceived]: lines 62-65. *)
Definition Protocol_lineReceived (line : bytes) : M PState unit :=
  me <- get_self ;;
  decoded <- of_res (decode (decode_args me) line) ;;
  me1 <- get_self ;;
  match Protocol_parser me1 with
  | None => raise AttributeError
  | Some p => pemit (EvHandleLine p decoded) ;;;
              pcall (handle_line (parsers p) decoded)
  end.

(** [Protocol.connectionMade]: lines 67-78. *)
Definition Protocol_connectionMade (srv : Server) : M PState unit :=
  me <- get_self ;;
  put_logger (host me, port me) ;;;
  (fun s => put_connections (connections s ++ [ident (self s)]) s) ;;;
  pemit EvOnConnect ;;;
  pcall (on_connect srv) ;;;
  me1 <- get_self ;;
  match Protocol_parser me1 with
  | Some p => call_on_attach (Some p) None
  | None => ret tt
  end.

(** The [==] of two parser objects that are not one object.  Their
    class is in [gsb/parser.py], which is not among the sources. *)
Variable Parser_eq : ParserId -> ParserId -> bool.

(** The other [Protocol] objects of the server: the values of their
    attributes, by the identity of the object.  Code that is run with
    the connection [self] does not change them. *)
Variable peers : ConnId -> Protocol.

(** [a == b] for two values of [_parser], as the comparison of two
    tuples makes it: one object, or objects that are equal. *)
Definition parser_equal (a b : option ParserId) : bool :=
  match a, b with
  | None, None => true
  | Some p, Some q => Nat.eqb p q || Parser_eq p q
  | _, _ => false
  end.

(** [a == b] for two [Protocol] objects: the [__eq__] that [@attrs]
    (line 12) makes compares the tuples of the attributes of lines
    27-40.  [server] is one object for the connections of a server's
    list (line 75 is what appends to it); [logger] is no attribute of
    [attrs] and is not compared. *)
Definition Protocol_eq (a b : Protocol) : bool :=
  String.eqb (host a) (host b)
  && Z.eqb (port a) (port b)
  && parser_equal (_parser a) (_parser b)
  && args_eqb (encode_args a) (encode_args b)
  && args_eqb (decode_args a) (decode_args b).

(** What [in] and [list.remove] test on the entry [x] of the list when
    they look for [me]: [x is me or x == me]. *)
Definition is_or_equals (me : Protocol) (x : ConnId) : bool :=
  Nat.eqb x (ident me) || Protocol_eq (peers x) me.

(** [list.remove]: the first entry that passes the test goes. *)
Fixpoint remove_first (test : ConnId -> bool) (l : list ConnId)
    : list ConnId :=
  match l with
  | [] => []
  | y :: rest => if test y then rest else y :: remove_first test rest
  end.

(** [Protocol.connectionLost]: lines 80-88, [reason] being what
    [reason.getErrorMessage()] returns. *)
Definition Protocol_connectionLost (srv : Server) (reason : str)
    : M PState unit :=
  (fun s =>
     if existsb (is_or_equals (self s)) (connections s)
     then put_connections
            (remove_first (is_or_equals (self s)) (connections s)) s
     else (Ok tt, s)) ;;;
  me <- get_self ;;
  lg <- getattr (logger me) ;;
  pemit (EvInfo lg reason) ;;;
  pemit EvOnDisconnect ;;;
  pcall (on_disconnect srv).

(** [Protocol.notify]: lines 90-92. *)
Definition Protocol_notify (text : str) (args : list FmtArg)
    (kwargs : list (str * FmtArg)) : M PState unit :=
  fun s =>
    match Server_notify (Some (ident (self s))) text args kwargs (pworld s) with
    | (r, w1) => (r, {| self := self s; connections := connections s;
                        pworld := w1; ptrace := ptrace s |})
    end.

(** The operations on a connection. *)
Inductive Op : Type :=
| SetParser (value : option ParserId)
| LineReceived (line : bytes)
| ConnectionMade
| ConnectionLost (reason : str)
| Notify (text : str) (args : list FmtArg) (kwargs : list (str * FmtArg)).

Definition run_op (srv : Server) (op : Op) : M PState unit :=
  match op with
  | SetParser value => Protocol_set_parser srv value
  | LineReceived line => Protocol_lineReceived line
  | ConnectionMade => Protocol_connectionMade srv
  | ConnectionLost reason => Protocol_connectionLost srv reason
  | Notify text args kwargs => Protocol_notify text args kwargs
  end.

(** A sequence of operations, each run whatever the one before it did
    (an exception ends one event, not the connection). *)
Fixpoint run_ops (srv : Server) (ops : list Op) (s : PState) : PState :=
  match ops with
  | [] => s
  | op :: rest => run_ops srv rest (snd (run_op srv op s))
  end.

(** A hook that returns and leaves the [Protocol] object as it found it
    (the spec: hooks "must not throw"). *)
Definition quiet (f : ConnCode unit) : Prop :=
  forall p w, fst (f (p, w)) = Ok tt /\ fst (snd (f (p, w))) = p.

(** User code that does not leave the connection without a parser. *)
Definition keeps_parser {A : Type} (f : ConnCode A) : Prop :=
  forall p w, _parser p <> None -> _parser (fst (snd (f (p, w)))) <> None.

(** The connection has a parser. *)
Definition attached (s : PState) : Prop := Protocol_parser (self s) <> None.

(** [m], run from a store that satisfies [P], leaves a store that
    satisfies [Q a] when it returns [a] and [E] when it raises. *)
Definition triple {A : Type} (P : PState -> Prop) (m : M PState A)
    (Q : A -> PState -> Prop) (E : PState -> Prop) : Prop :=
  forall s, P s ->
    match m s with
    | (Ok a, s1) => Q a s1
    | (Raise _, s1) => E s1
    end.

End GSB.

Arguments mkCaller {Match} connection text match_ exception.
Arguments connection {Match} c.
Arguments text {Match} c.
Arguments match_ {Match} c.
Arguments exception {Match} c.
Arguments Caller_new {Match} connection text.
Arguments mkCommand {W Regexp Match} func regexp allowed.
Arguments func {W Regexp Match} c.
Arguments regexp {W Regexp Match} c.
Arguments allowed {W Regexp Match} c.
Arguments mkParser {W} on_attach on_detach handle_line.
Arguments on_attach {W} p ctx.
Arguments on_detach {W} p ctx.
Arguments handle_line {W} p line.
Arguments mkServer {W Regexp Match} commands on_command on_error huh
  on_connect on_disconnect default_parser.
Arguments commands {W Regexp Match} s.
Arguments on_command {W Regexp Match} s.
Arguments on_error {W Regexp Match} s.
Arguments huh {W Regexp Match} s.
Arguments on_connect {W Regexp Match} s.
Arguments on_disconnect {W Regexp Match} s.
Arguments default_parser {W Regexp Match} s.
Arguments Tuple {FmtArg} args.
Arguments Dict {FmtArg} kwargs.
Arguments Server_format_text {FmtArg} percent text args kwargs.
Arguments Server_notify {W} sendLine {FmtArg} percent connection text args kwargs.
Arguments on_world {W X A} m.
Arguments Server_on_command {W Match}.
Arguments Server_on_error {W Match} sendLine {FmtArg} percent.
Arguments Server_huh {W Match} sendLine {FmtArg} percent.
Arguments Server_on_connect {W}.
Arguments Server_on_disconnect {W}.
Arguments Server_base {W Regexp Match} sendLine {FmtArg} percent commands.
Arguments EvOnCommand {Match} c.
Arguments EvSearch {Match} i.
Arguments EvAllowed {Match} i c.
Arguments EvFunc {Match} i c.
Arguments EvLogException {Match} r.
Arguments EvOnError {Match} c.
Arguments EvHuh {Match} c.
Arguments mkDState {W Match} caller world trace.
Arguments caller {W Match} d.
Arguments world {W Match} d.
Arguments trace {W Match} d.
Arguments emit {W Match} ev.
Arguments get_caller {W Match}.
Arguments set_match {W Match} m.
Arguments set_exception {W Match} e.
Arguments call {W Match A} f.
Arguments eligible {W Regexp Match} i cmd.
Arguments run_command {W Regexp Match} srv i cmd.
Arguments try_match {W Regexp Match} search line i cmd.
Arguments for_commands {W Regexp Match} search srv line i cmds.
Arguments not_understood {W Regexp Match} srv.
Arguments gate {W Regexp Match} srv.
Arguments loop {W Regexp Match} search srv line i cmds.
Arguments start {W Match} connection line w.
Arguments Server_handle_line {W Regexp Match} search srv connection line w.
Arguments pass_over {W Regexp Match} search line i cmds s.
Arguments funcs_called {Match} tr.
Arguments searched {Match} tr.
Arguments on_error_calls {Match} tr.
Arguments huh_calls {Match} tr.
Arguments logged {Match} tr.
Arguments mkPState {W} self connections pworld ptrace.
Arguments self {W} p.
Arguments connections {W} p.
Arguments pworld {W} p.
Arguments ptrace {W} p.
Arguments pemit {W} ev.
Arguments get_self {W}.
Arguments put_parser {W} value.
Arguments put_logger {W} lg.
Arguments put_connections {W} cs.
Arguments pcall {W A} f.
Arguments call_on_detach {W} parsers p new_parser.
Arguments call_on_attach {W} parsers p old_parser.
Arguments or_default {W Regexp Match} srv value.
Arguments Protocol_set_parser {W Regexp Match} parsers srv value.
Arguments Protocol_lineReceived {W} parsers line.
Arguments Protocol_connectionMade {W Regexp Match} parsers srv.
Arguments Protocol_connectionLost {W Regexp Match} Parser_eq peers srv reason.
Arguments Protocol_notify {W} sendLine {FmtArg} percent text args kwargs.
Arguments SetParser {FmtArg} value.
Arguments LineReceived {FmtArg} line.
Arguments ConnectionMade {FmtArg}.
Arguments ConnectionLost {FmtArg} reason.
Arguments Notify {FmtArg} text args kwargs.
Arguments run_op {W Regexp Match} sendLine {FmtArg} percent parsers Parser_eq
  peers srv op.
Arguments run_ops {W Regexp Match} sendLine {FmtArg} percent parsers Parser_eq
  peers srv ops s.
Arguments uneventful {Match} evs.
Arguments after_func {W Match} i s c w.
Arguments with_exception {Match} c e.
Arguments with_match {Match} c m.
Arguments from_command {W Regexp Match} search srv line i cmd post.
Arguments quiet {W} f.
Arguments keeps_parser {W A} f.
Arguments attached {W} s.
Arguments triple {W A} P m Q E.
Arguments Server_command {W Regexp Match} srv func regexp allowed.
Arguments notify_each {W} sendLine {FmtArg} percent cons text.
Arguments Server_broadcast {W} sendLine {FmtArg} percent cons text args kwargs.
Arguments send_each {W} sendLine cons payload.
Arguments decline {W Regexp Match} search srv line i cmds s.
Arguments tame {W Regexp Match} cmd.
Arguments loop_record {W Regexp Match} search line i cmds evs k.

(* ================================================================== *)
(** ** Menus

    [gsb/intercept.py] is not among the sources: the tests import it and
    the specification describes it (section 4.3).  A [Menu] is a parser
    whose line handler resolves the line against the labels of its
    items. *)

(** Modelled from the spec: the code points that trimming removes (the
    spec says "trimmed input"; these are the ASCII white space that
    Python's [str.strip] removes). *)
Definition is_space (c : N) : bool :=
  ((c =? 32) || ((9 <=? c) && (c <=? 13)))%N.

(** Modelled from the spec: what is left of a text once the white space
    in front of it is gone. *)
Fixpoint lstrip (s : str) : str :=
  match s with
  | [] => []
  | c :: rest => if is_space c then lstrip rest else s
  end.

(** Modelled from the spec: the "trimmed input". *)
Definition strip (s : str) : str := rev (lstrip (rev (lstrip s))).

(** Modelled from the spec: "case-insensitive" comparison, through the
    lower-case form of a text (of its ASCII letters; the spec names no
    case mapping beyond that). *)
Definition lower (s : str) : str :=
  map (fun c => if ((65 <=? c) && (c <=? 90))%N then (c + 32)%N else c) s.

(** Equality of texts, as a boolean. *)
Fixpoint str_eqb (a b : str) : bool :=
  match a, b with
  | [], [] => true
  | x :: a1, y :: b1 => (x =? y)%N && str_eqb a1 b1
  | _, _ => false
  end.

(** [s] begins with [p]. *)
Fixpoint starts_with (p s : str) : bool :=
  match p, s with
  | [], _ => true
  | x :: p1, y :: s1 => (x =? y)%N && starts_with p1 s1
  | _ :: _, [] => false
  end.

(** Modelled from the spec: "does item label contain input as a
    substring". *)
Fixpoint contains (needle hay : str) : bool :=
  starts_with needle hay
  || match hay with
     | [] => false
     | _ :: rest => contains needle rest
     end.

Section Intercept.

Variable W : Type.
Variable sendLine : ConnId -> bytes -> M W unit.
Variable FmtArg : Type.
Variable percent : str -> FmtOperand FmtArg -> Res str.

(** The texts of the two notifications; the spec names the conditions
    ("not found", "ambiguous") and not the wording. *)
Variables not_found_text ambiguous_text : str.

(** Modelled from the spec: a [MenuItem] is "a display label (text) and
    an action".  The action is handed a [Caller] whose [match] names the
    chosen item, here by its position in the menu. *)
Record MenuItem : Type := mkMenuItem {
  item_text : str;
  item_func : Code W nat unit
}.

(** Modelled from the spec: a [Menu] is "a title and an ordered sequence
    of MenuItems". *)
Record Menu : Type := mkMenu {
  title : str;
  items : list MenuItem
}.

(** Modelled from the spec: an item's label matches the input when it
    contains it, case apart. *)
Definition label_matches (input : str) (item : MenuItem) : bool :=
  contains (lower input) (lower (item_text item)).

(** The items from position [i] on, each with its position. *)
Fixpoint numbered (i : nat) (l : list MenuItem) : list (nat * MenuItem) :=
  match l with
  | [] => []
  | x :: rest => (i, x) :: numbered (S i) rest
  end.

(** Modelled from the spec: "collect all items whose label matches". *)
Definition matching (m : Menu) (input : str) : list (nat * MenuItem) :=
  filter (fun p => label_matches input (snd p)) (numbered 0 (items m)).

(** How a line resolves against a menu. *)
Inductive Resolution : Type :=
| Chosen (i : nat) (item : MenuItem)
| NotFound
| Ambiguous.

(** Modelled from the spec: the resolution of section 4.3.  The trimmed
    input [$] selects the last item; otherwise zero matches is "not
    found", one match is the choice, more are "ambiguous".  The input
    compared with the labels is the trimmed one.  A menu without items
    has no last item: [$] then resolves as "not found" (the spec is
    silent). *)
Definition Menu_match (m : Menu) (input : str) : Resolution :=
  let t := strip input in
  if str_eqb t (lit "$") then
    match rev (numbered 0 (items m)) with
    | (i, item) :: _ => Chosen i item
    | [] => NotFound
    end
  else
    match matching m t with
    | [] => NotFound
    | [(i, item)] => Chosen i item
    | _ :: _ :: _ => Ambiguous
    end.

(** Modelled from the spec: the menu's line handler.  The chosen item's
    action is called "with a Caller whose match field is set to the
    winning item"; the two failures notify the connection and call no
    action. *)
Definition Menu_handle_line (m : Menu) (line : str) : Code W nat unit :=
  fun cw =>
    match Menu_match m line with
    | Chosen i item =>
        item_func item
          ({| connection := connection (fst cw); text := text (fst cw);
              match_ := Some i; exception := exception (fst cw) |}, snd cw)
    | NotFound =>
        on_world (Server_notify sendLine percent (connection (fst cw))
                    not_found_text [] []) cw
    | Ambiguous =>
        on_world (Server_notify sendLine percent (connection (fst cw))
                    ambiguous_text [] []) cw
    end.

End Intercept.

Arguments mkMenuItem {W} item_text item_func.
Arguments item_text {W} m.
Arguments item_func {W} m.
Arguments mkMenu {W} title items.
Arguments title {W} m.
Arguments items {W} m.
Arguments label_matches {W} input item.
Arguments numbered {W} i l.
Arguments matching {W} m input.
Arguments Chosen {W} i item.
Arguments NotFound {W}.
Arguments Ambiguous {W}.
Arguments Menu_match {W} m input.
Arguments Menu_handle_line {W} sendLine {FmtArg} percent
  not_found_text ambiguous_text m line.

(* ================================================================== *)
(** ** A small server over the model

    The objects that the test file builds, and a few more, on which the
    definitions above compute. *)

(** What the world remembers: the lines sent to connections and what the
    handlers and hooks did, oldest first. *)
Inductive Out : Type :=
| Sent (con : ConnId) (payload : bytes)
| Did (what : string).

Definition World : Type := list Out.

(** [sendLine] as Twisted has it: the line goes out. *)
Definition wire_sendLine (con : ConnId) (payload : bytes) : M World unit :=
  fun w => (Ok tt, w ++ [Sent con payload]).

(** [sendLine] of [_TestProtocol] (lines 32-35 of the test file): the
    line is kept and [NotifyException] is raised. *)
Definition test_sendLine (con : ConnId) (payload : bytes) : M World unit :=
  fun w => (Raise (ExceptionOf "NotifyException"), w ++ [Sent con payload]).

(** The patterns of the examples: [Whole s] stands for [^s$] and
    [Within s] for [s], [s] being free of special characters. *)
Inductive Pattern : Type :=
| Whole (s : string)
| Within (s : string).

(** [re.search] on these patterns; the match object is the text found.
    [$] also matches before a final newline. *)
Definition pattern_search (p : Pattern) (line : str) : option str :=
  match p with
  | Whole s =>
      if str_eqb (lit s) line || str_eqb (lit s ++ [10%N]) line
      then Some (lit s) else None
  | Within s => if contains (lit s) line then Some (lit s) else None
  end.

(** No example formats arguments into a text. *)
Definition no_percent (text : str) (operand : FmtOperand Empty_set) : Res str :=
  Ok text.

(** A handler that notes [what] and returns. *)
Definition noting {Match : Type} (what : string) : Code World Match unit :=
  fun cw => (Ok tt, (fst cw, snd cw ++ [Did what])).

(** A handler that notes [what] and raises [e]. *)
Definition raising {Match : Type} (what : string) (e : PyExc)
    : Code World Match unit :=
  fun cw => (Raise e, (fst cw, snd cw ++ [Did what])).

(** A guard that lets connection [con] through and nobody else. *)
Definition only_for (con : ConnId) : Code World str bool :=
  fun cw =>
    (Ok match connection (fst cw) with
        | Some c => Nat.eqb c con
        | None => false
        end, cw).

(** [good_command] and [bad_command] of the test file, registered with
    [s.command('^good$')] and [s.command('^bad$')]. *)
Definition good_command : Command World Pattern str :=
  mkCommand (noting "good") (Whole "good") None.

Definition bad_command : Command World Pattern str :=
  mkCommand (noting "bad") (Whole "bad") None.

(** Three commands that all match a line with [go] in it: the first
    asks to be skipped, the second fails, the third returns. *)
Definition skipping_command : Command World Pattern str :=
  mkCommand (raising "skipping" DontStopException) (Within "go") None.

Definition failing_command : Command World Pattern str :=
  mkCommand (raising "failing" (ExceptionOf "ValueError")) (Within "go") None.

Definition plain_command : Command World Pattern str :=
  mkCommand (noting "plain") (Within "go") None.

(** A command for connection 2 alone. *)
Definition guarded_command : Command World Pattern str :=
  mkCommand (noting "guarded") (Within "go") (Some (only_for 2)).

(** A server of the class [Server] with the given commands. *)
Definition server_of (cmds : list (Command World Pattern str))
    : Server World Pattern str :=
  Server_base wire_sendLine no_percent cmds.

(** The same with an [on_command] that refuses every line. *)
Definition closed_server (cmds : list (Command World Pattern str))
    : Server World Pattern str :=
  mkServer cmds (ret false) (Server_on_error wire_sendLine no_percent)
    (Server_huh wire_sendLine no_percent)
    Server_on_connect Server_on_disconnect Missing.

(** A server with a [default_parser] attribute. *)
Definition server_with_default (d : option ParserId)
    : Server World Pattern str :=
  mkServer [good_command; bad_command] Server_on_command
    (Server_on_error wire_sendLine no_percent)
    (Server_huh wire_sendLine no_percent)
    Server_on_connect Server_on_disconnect (Has d).

(** A hook that notes [what] and leaves the connection as it is. *)
Definition hook (what : string) : ConnCode World unit :=
  fun pw => (Ok tt, (fst pw, snd pw ++ [Did what])).

(** The parsers of the examples: parser 0 hands its lines to
    [Server.handle_line] of the server with [good] and [bad]; the others
    note what they are given. *)
Definition the_parsers (p : ParserId) : Parser World :=
  match p with
  | O =>
      mkParser (fun _ => hook "attach 0") (fun _ => hook "detach 0")
        (fun line pw =>
           match Server_handle_line pattern_search
                   (server_of [good_command; bad_command])
                   (Some (ident (fst pw))) line (snd pw) with
           | (r, d) => (r, (fst pw, world d))
           end)
  | S _ =>
      mkParser (fun _ => hook "attach") (fun _ => hook "detach")
        (fun _ => hook "line")
  end.

(** The connection [p] of the test file, with parser 0 attached, before
    and after [connectionMade]. *)
Definition test_protocol : Protocol := Protocol_new 1 "127.0.0.1" 1987 (Some 0).

Definition fresh (p : Protocol) : PState World :=
  mkPState p [] [] [].

Definition connected : PState World :=
  snd (Protocol_connectionMade the_parsers (server_with_default (Some 0))
         (fresh test_protocol)).

(** An ASCII text as the bytes [encode] makes of it. *)
Definition ascii_bytes (s : string) : bytes :=
  map byte_of_ascii (list_ascii_of_string s).

(** The menu of [test_menu] (lines 93-97 of the test file): each action
    raises an exception of its own. *)
Definition test_menu : Menu World :=
  mkMenu (lit "Test Menu")
    [mkMenuItem (lit "First Thing") (raising "1" (ExceptionOf "MenuItem1"));
     mkMenuItem (lit "second Thing") (raising "2" (ExceptionOf "MenuItem2"));
     mkMenuItem (lit "Third Thing") (raising "3" (ExceptionOf "MenuItem3"))].

(** The line handler of a menu on the wire, with the texts of its two
    notifications. *)
Definition menu_line (m : Menu World) (line : str) : Code World nat unit :=
  Menu_handle_line wire_sendLine no_percent
    (lit "not found") (lit "ambiguous") m line.

(** A command whose guard raises, and one whose handler leaves through
    [SystemExit]. *)
Definition touchy_command : Command World Pattern str :=
  mkCommand (noting "touchy") (Within "go")
    (Some (fun cw => (Raise (ExceptionOf "KeyError"), cw))).

Definition exiting_command : Command World Pattern str :=
  mkCommand (raising "exiting" (BaseExceptionOf "SystemExit")) (Within "go")
    None.

(** A [sendLine] that fails for connection 2, whose transport is gone,
    and sends for the others. *)
Definition flaky_sendLine (con : ConnId) (payload : bytes) : M World unit :=
  fun w =>
    if Nat.eqb con 2 then (Raise (ExceptionOf "ConnectionLost"), w)
    else (Ok tt, w ++ [Sent con payload]).

(** A hook that notes [what] and raises, leaving the connection as it
    is. *)
Definition failing_hook (what : string) : ConnCode World unit :=
  fun pw => (Raise (ExceptionOf "RuntimeError"), (fst pw, snd pw ++ [Did what])).

(** Parsers whose detach hook raises. *)
Definition vetoing_parsers (p : ParserId) : Parser World :=
  mkParser (fun _ => hook "attach") (fun _ => failing_hook "detach")
    (fun _ => hook "line").

(** Parsers whose attach hook raises. *)
Definition refusing_parsers (p : ParserId) : Parser World :=
  mkParser (fun _ => failing_hook "attach") (fun _ => hook "detach")
    (fun _ => hook "line").

(** The parser objects of the examples are equal to themselves only. *)
Definition the_Parser_eq (p q : ParserId) : bool := false.

(** The other connections of the examples: connection 5 has the host,
    the port and the parser of the test connection, and the default
    codecs; the others come from another host. *)
Definition the_peers (x : ConnId) : Protocol :=
  match x with
  | 5 => Protocol_new 5 "127.0.0.1" 1987 (Some 0)
  | _ => Protocol_new x "10.0.0.7" 4000 (Some 0)
  end.

(** The connected test connection with the [strict] error handler. *)
Definition strict_connected : PState World :=
  mkPState
    (mkProtocol 1 "127.0.0.1" 1987 (Some 0) (UTF8, Replace) (UTF8, Strict)
       (Has ("127.0.0.1"%string, 1987%Z)))
    [1] [] [].

(* ================================================================== *)
(** ** Properties of the dispatch loop *)

Section DispatchProofs.

Variable W : Type.
Variables Regexp Match : Type.
Variable search : Regexp -> str -> option Match.

Implicit Types srv : Server W Regexp Match.
Implicit Types cmd : Command W Regexp Match.
Implicit Types s : DState W Match.
Implicit Types evs : list (Event Match).

Lemma funcs_called_app evs1 evs2 :
  funcs_called (evs1 ++ evs2) = funcs_called evs1 ++ funcs_called evs2.
Proof. apply flat_map_app. Qed.

Lemma searched_app evs1 evs2 :
  searched (evs1 ++ evs2) = searched evs1 ++ searched evs2.
Proof. apply flat_map_app. Qed.

Lemma on_error_calls_app evs1 evs2 :
  on_error_calls (evs1 ++ evs2) = on_error_calls evs1 ++ on_error_calls evs2.
Proof. apply flat_map_app. Qed.

Lemma huh_calls_app evs1 evs2 :
  huh_calls (evs1 ++ evs2) = huh_calls evs1 ++ huh_calls evs2.
Proof. apply flat_map_app. Qed.

Lemma logged_app evs1 evs2 :
  logged (evs1 ++ evs2) = logged evs1 ++ logged evs2.
Proof. apply flat_map_app. Qed.


Lemma uneventful_app evs1 evs2 :
  uneventful evs1 -> uneventful evs2 -> uneventful (evs1 ++ evs2).
Proof.
  unfold uneventful.
  intros (F1 & E1 & H1 & L1) (F2 & E2 & H2 & L2).
  rewrite funcs_called_app, on_error_calls_app, huh_calls_app, logged_app.
  rewrite F1, F2, E1, E2, H1, H2, L1, L2. auto.
Qed.

(** What it is for a command to be eligible: its pattern is found in the
    line and, when it has a guard, the guard returns true on the
    [Caller] that holds the match.  The guard is not called when the
    search fails. *)
Lemma try_match_spec line i cmd s :
  let found := search (regexp cmd) line in
  let s1 := {| caller := with_match (caller s) found; world := world s;
               trace := trace s ++ [EvSearch i] |} in
  try_match search line i cmd s
  = match found, allowed cmd with
    | None, _ => (Ok false, s1)
    | Some _, None => (Ok true, s1)
    | Some _, Some guard => (emit (EvAllowed i (caller s1)) ;;; call guard) s1
    end.
Proof.
  intros found s1. subst s1.
  unfold try_match, eligible, bind, emit, set_match, get_caller, ret,
    with_match.
  cbn [caller world trace match_]. fold found.
  destruct found as [m|]; [|reflexivity].
  destruct (allowed cmd) as [guard|]; reflexivity.
Qed.

(** An eligible command, in the words of lines 113-115: the search
    succeeded, and the guard, if there is one, returned true on the
    [Caller] that holds the match. *)
Lemma try_match_eligible line i cmd s s1 :
  try_match search line i cmd s = (Ok true, s1) ->
  search (regexp cmd) line <> None
  /\ (forall guard, allowed cmd = Some guard ->
        fst (guard (with_match (caller s) (search (regexp cmd) line),
                    world s)) = Ok true).
Proof.
  rewrite try_match_spec.
  destruct (search (regexp cmd) line) as [m|]; [|discriminate].
  intros H. split; [discriminate|]. intros guard A. rewrite A in H.
  unfold bind, emit, call in H. cbn [caller world trace] in H.
  destruct (guard (with_match (caller s) (Some m), world s))
    as [r [c1 w1]].
  inversion H. reflexivity.
Qed.

(** A command that is not eligible: the search failed, or the guard
    returned false on the [Caller] that holds the match. *)
Lemma try_match_not_eligible line i cmd s s1 :
  try_match search line i cmd s = (Ok false, s1) ->
  search (regexp cmd) line = None
  \/ exists guard cw,
       allowed cmd = Some guard
       /\ match_ (fst cw) = search (regexp cmd) line
       /\ fst (guard cw) = Ok false.
Proof.
  rewrite try_match_spec.
  destruct (search (regexp cmd) line) as [m|] eqn:Sm; [|left; reflexivity].
  destruct (allowed cmd) as [guard|]; [|discriminate].
  intros H. right.
  exists guard, (with_match (caller s) (Some m), world s).
  split; [reflexivity|]. split; [reflexivity|].
  unfold bind, emit, call in H. cbn [caller world trace] in H.
  destruct (guard (with_match (caller s) (Some m), world s))
    as [r [c1 w1]].
  inversion H. reflexivity.
Qed.

(** The commands that the loop passes over are not eligible. *)
Lemma pass_over_not_eligible line cmds : forall i s s1,
  pass_over search line i cmds s = Some s1 ->
  forall cmd, In cmd cmds ->
    search (regexp cmd) line = None
    \/ exists guard cw,
         allowed cmd = Some guard
         /\ match_ (fst cw) = search (regexp cmd) line
         /\ fst (guard cw) = Ok false.
Proof.
  induction cmds as [|c rest IH]; intros i s s1 H cmd Hin;
    cbn [pass_over] in H; [contradiction|].
  destruct (try_match search line i c s) as [[[|]|e] s2] eqn:T;
    try discriminate.
  destruct Hin as [<-|Hin].
  - exact (try_match_not_eligible _ _ _ _ _ T).
  - exact (IH _ _ _ H cmd Hin).
Qed.

(** Trying a command records its search, maybe a call of its guard, and
    nothing else. *)
Lemma try_match_trace line i cmd s r s1 :
  try_match search line i cmd s = (r, s1) ->
  exists evs,
    trace s1 = trace s ++ evs /\ searched evs = [i] /\ uneventful evs.
Proof.
  unfold try_match, eligible, bind, emit, set_match, get_caller, ret, call.
  cbn [caller world trace match_ fst snd].
  destruct (search (regexp cmd) line) as [m|].
  - destruct (allowed cmd) as [guard|].
    + cbn [caller world trace].
      match goal with
      | |- context [guard ?a] => destruct (guard a) as [rg [c1 w1]]
      end.
      intros H.
      assert (trace s1 = (trace s ++ [EvSearch i])
                         ++ [EvAllowed i
                               {| connection := connection (caller s);
                                  text := text (caller s);
                                  match_ := Some m;
                                  exception := exception (caller s) |}]) as T.
      { destruct rg; inversion H; reflexivity. }
      rewrite <- app_assoc in T. eexists. split; [exact T|].
      repeat split; reflexivity.
    + intros H. inversion H; subst. cbn [trace].
      eexists. split; [reflexivity|]. repeat split; reflexivity.
  - intros H. inversion H; subst. cbn [trace].
    eexists. split; [reflexivity|]. repeat split; reflexivity.
Qed.

(** What is on record once the loop has passed over [cmds]: their
    searches, in order, and no call of a handler or hook. *)
Lemma pass_over_trace line cmds : forall i s s1,
  pass_over search line i cmds s = Some s1 ->
  exists evs,
    trace s1 = trace s ++ evs
    /\ searched evs = seq i (length cmds) /\ uneventful evs.
Proof.
  induction cmds as [|cmd rest IH]; intros i s s1 H; cbn [pass_over] in H.
  - inversion H; subst. exists []. rewrite app_nil_r.
    repeat split; reflexivity.
  - destruct (try_match search line i cmd s) as [[[|]|e] s2] eqn:T;
      try discriminate.
    destruct (try_match_trace _ _ _ _ _ _ T) as (evs1 & T1 & S1 & U1).
    destruct (IH _ _ _ H) as (evs2 & T2 & S2 & U2).
    exists (evs1 ++ evs2). split; [|split].
    + rewrite T2, T1, app_assoc. reflexivity.
    + rewrite searched_app, S1, S2. reflexivity.
    + apply uneventful_app; assumption.
Qed.

(** Passing over a prefix of the list leaves the loop at the command
    that follows it. *)
Lemma for_commands_pass_over srv line pre post : forall i s s1,
  pass_over search line i pre s = Some s1 ->
  for_commands search srv line i (pre ++ post) s
  = for_commands search srv line (length pre + i) post s1.
Proof.
  induction pre as [|cmd rest IH]; intros i s s1 H; cbn [pass_over] in H.
  - inversion H; subst. reflexivity.
  - destruct (try_match search line i cmd s) as [[[|]|e] s2] eqn:T;
      try discriminate.
    cbn [app for_commands length]. unfold bind at 1. rewrite T.
    rewrite (IH _ _ _ H). f_equal. lia.
Qed.

(** The [on_command] hook is all that [gate] calls. *)
Lemma gate_trace srv conn line w r s0 :
  gate srv (start conn line w) = (r, s0) ->
  trace s0 = [EvOnCommand (Caller_new conn (Some line))].
Proof.
  unfold gate, start, bind, get_caller, emit, call.
  cbn [caller world trace].
  destruct (on_command srv _) as [rg [c1 w1]].
  intros H. destruct rg; inversion H; reflexivity.
Qed.



(** A handler that returns: [break]. *)
Lemma run_command_returns srv i cmd s c w :
  func cmd (caller s, world s) = (Ok tt, (c, w)) ->
  run_command srv i cmd s = (Ok Break, after_func i s c w).
Proof.
  intros H.
  unfold run_command, try_except, bind, get_caller, emit, call, ret.
  cbn [caller world trace]. rewrite H. reflexivity.
Qed.

(** A handler that raises [DontStopException]: [continue], with nothing
    done but the call. *)
Lemma run_command_skips srv i cmd s c w :
  func cmd (caller s, world s) = (Raise DontStopException, (c, w)) ->
  run_command srv i cmd s = (Ok Continue, after_func i s c w).
Proof.
  intros H.
  unfold run_command, try_except, bind, get_caller, emit, call, ret.
  cbn [caller world trace]. rewrite H. reflexivity.
Qed.

(** A handler that raises another [Exception]: the exception is stored
    on the [Caller] and logged, [on_error] is called, and the loop is
    left by [break] if [on_error] returns. *)
Lemma run_command_fails srv i cmd s c w cls ro c1 w1 :
  func cmd (caller s, world s) = (Raise (ExceptionOf cls), (c, w)) ->
  on_error srv (with_exception c (ExceptionOf cls), w) = (ro, (c1, w1)) ->
  run_command srv i cmd s
  = (match ro with Ok _ => Ok Break | Raise e => Raise e end,
     {| caller := c1; world := w1;
        trace := trace s
                 ++ [EvFunc i (caller s);
                     EvLogException (CommandThrew i);
                     EvLogException (Thrown (ExceptionOf cls));
                     EvOnError (with_exception c (ExceptionOf cls))] |}).
Proof.
  intros H E. unfold with_exception in E.
  unfold run_command, try_except, bind, get_caller, emit, call, ret,
    set_exception.
  cbn [caller world trace]. rewrite H.
  cbn [caller world trace connection text match_ exception]. rewrite E.
  repeat rewrite <- app_assoc. cbn [app].
  destruct ro as [[]|e]; reflexivity.
Qed.

(** A handler that raises outside [Exception]: nothing catches it. *)
Lemma run_command_exits srv i cmd s c w cls :
  func cmd (caller s, world s) = (Raise (BaseExceptionOf cls), (c, w)) ->
  run_command srv i cmd s
  = (Raise (BaseExceptionOf cls), after_func i s c w).
Proof.
  intros H.
  unfold run_command, try_except, bind, get_caller, emit, call, ret.
  cbn [caller world trace]. rewrite H. reflexivity.
Qed.


(** When [on_command] lets the line through, the commands before [cmd]
    are passed over and [cmd] is eligible, [handle_line] reaches the
    call of [cmd]'s handler with the searches up to [cmd] on record and
    no handler or hook called. *)
Lemma reaches_command srv conn line w pre cmd post s0 s1 s2 :
  commands srv = pre ++ cmd :: post ->
  gate srv (start conn line w) = (Ok true, s0) ->
  pass_over search line 0 pre s0 = Some s1 ->
  try_match search line (length pre) cmd s1 = (Ok true, s2) ->
  Server_handle_line search srv conn line w
  = from_command search srv line (length pre) cmd post s2
  /\ exists evs,
       trace s2 = [EvOnCommand (Caller_new conn (Some line))] ++ evs
       /\ searched evs = seq 0 (S (length pre)) /\ uneventful evs.
Proof.
  intros Hcmds Hgate Hpass Htry. split.
  - unfold Server_handle_line. unfold bind at 1. rewrite Hgate.
    unfold loop, from_command. rewrite Hcmds.
    unfold bind at 1. rewrite (for_commands_pass_over _ _ _ _ _ _ _ Hpass).
    rewrite Nat.add_0_r. cbn [for_commands]. unfold bind at 1.
    rewrite Htry. reflexivity.
  - destruct (pass_over_trace _ _ _ _ _ Hpass) as (evs1 & T1 & S1 & U1).
    destruct (try_match_trace _ _ _ _ _ _ Htry) as (evs2 & T2 & S2 & U2).
    exists (evs1 ++ evs2). split; [|split].
    + rewrite T2, T1, (gate_trace _ _ _ _ _ _ Hgate). reflexivity.
    + rewrite searched_app, S1, S2, seq_S. reflexivity.
    + apply uneventful_app; assumption.
Qed.

(** Splits a trace into its events and reads each one. *)
Ltac read_trace :=
  repeat rewrite ?funcs_called_app, ?searched_app, ?on_error_calls_app,
    ?huh_calls_app, ?logged_app.

(** C1.  Dispatch is first-match-wins: when [on_command] lets the line
    through, the commands registered before [cmd] are not eligible (the
    search fails or the guard returns false) and [cmd] is eligible (the
    search succeeds and its guard is absent or returns true), then the
    one handler that [handle_line] calls is [cmd]'s, with the [Caller]
    that holds the search result, and no command registered after [cmd]
    is tried, whether or not it would match ([A], [B] both matching:
    only [A] runs).  The handler is one that does not raise
    [DontStopException]; the fallback [huh] is not called.  What
    [handle_line] leaves is what the handler made of the [Caller] and
    of the world: as the handler left them when it returned or raised
    outside [Exception], and as [on_error] left them, called on what
    the handler left, when it raised an [Exception]. *)
Theorem first_eligible_command_wins
    srv conn line w pre cmd post s0 s1 s2 r cw :
  commands srv = pre ++ cmd :: post ->
  gate srv (start conn line w) = (Ok true, s0) ->
  pass_over search line 0 pre s0 = Some s1 ->
  try_match search line (length pre) cmd s1 = (Ok true, s2) ->
  func cmd (caller s2, world s2) = (r, cw) ->
  r <> Raise DontStopException ->
  let out := Server_handle_line search srv conn line w in
  let tr := trace (snd out) in
  funcs_called tr = [length pre]
  /\ In (EvFunc (length pre) (caller s2)) tr
  /\ searched tr = seq 0 (S (length pre))
  /\ huh_calls tr = []
  /\ match r with
     | Ok _ =>
         fst out = Ok tt /\ (caller (snd out), world (snd out)) = cw
     | Raise (ExceptionOf cls) =>
         let failed := (with_exception (fst cw) (ExceptionOf cls), snd cw) in
         fst out = fst (on_error srv failed)
         /\ (caller (snd out), world (snd out)) = snd (on_error srv failed)
     | Raise (BaseExceptionOf cls) =>
         fst out = Raise (BaseExceptionOf cls)
         /\ (caller (snd out), world (snd out)) = cw
     | Raise DontStopException => True
     end
  /\ search (regexp cmd) line <> None
  /\ (forall guard, allowed cmd = Some guard ->
        fst (guard (with_match (caller s1) (search (regexp cmd) line),
                    world s1)) = Ok true)
  /\ (forall earlier, In earlier pre ->
        search (regexp earlier) line = None
        \/ exists guard cw,
             allowed earlier = Some guard
             /\ match_ (fst cw) = search (regexp earlier) line
             /\ fst (guard cw) = Ok false).
Proof.
  intros Hcmds Hgate Hpass Htry Hfunc Hr out tr. subst tr out.
  destruct (reaches_command _ _ _ _ _ _ _ _ _ _ Hcmds Hgate Hpass Htry)
    as (Heq & evs & T & Sr & (F & E & H & L)).
  assert (search (regexp cmd) line <> None
          /\ (forall guard, allowed cmd = Some guard ->
                fst (guard (with_match (caller s1)
                              (search (regexp cmd) line), world s1))
                = Ok true)
          /\ (forall earlier, In earlier pre ->
                search (regexp earlier) line = None
                \/ exists guard cw,
                     allowed earlier = Some guard
                     /\ match_ (fst cw) = search (regexp earlier) line
                     /\ fst (guard cw) = Ok false)) as Elig.
  { destruct (try_match_eligible _ _ _ _ _ Htry) as [E1 E2].
    split; [exact E1|]. split; [exact E2|].
    exact (pass_over_not_eligible _ _ _ _ _ Hpass). }
  rewrite Heq. unfold from_command. destruct cw as [c w1].
  assert (forall tail,
            funcs_called tail = [] -> searched tail = [] ->
            huh_calls tail = [] ->
            let tr := trace s2 ++ EvFunc (length pre) (caller s2) :: tail in
            funcs_called tr = [length pre]
            /\ In (EvFunc (length pre) (caller s2)) tr
            /\ searched tr = seq 0 (S (length pre))
            /\ huh_calls tr = []) as Done.
  { intros tail Ft St Ht tr. subst tr. rewrite T.
    change (EvFunc (length pre) (caller s2) :: tail)
      with ([EvFunc (length pre) (caller s2)] ++ tail).
    repeat split.
    - read_trace. rewrite F, Ft. reflexivity.
    - apply in_or_app. right. left. reflexivity.
    - read_trace. rewrite Sr, St. cbn [searched flat_map app].
      rewrite !app_nil_r. reflexivity.
    - read_trace. rewrite H, Ht. reflexivity. }
  destruct r as [[]|[|cls|cls]].
  - unfold bind. rewrite (run_command_returns _ _ _ _ _ _ Hfunc).
    cbn [fst snd trace caller world after_func ret].
    destruct (Done [] eq_refl eq_refl eq_refl) as (D1 & D2 & D3 & D4).
    refine (conj D1 (conj D2 (conj D3 (conj D4 (conj _ Elig))))).
    split; reflexivity.
  - contradiction Hr. reflexivity.
  - cbn [fst snd].
    destruct (on_error srv (with_exception c (ExceptionOf cls), w1))
      as [ro [c1 w2]] eqn:Eo.
    unfold bind. rewrite (run_command_fails _ _ _ _ _ _ _ _ _ _ Hfunc Eo).
    destruct (Done [EvLogException (CommandThrew (length pre));
                    EvLogException (Thrown (ExceptionOf cls));
                    EvOnError (with_exception c (ExceptionOf cls))]
                eq_refl eq_refl eq_refl) as (D1 & D2 & D3 & D4).
    destruct ro as [[]|e]; cbn [fst snd trace caller world ret];
      refine (conj D1 (conj D2 (conj D3 (conj D4 (conj _ Elig)))));
      split; reflexivity.
  - unfold bind. rewrite (run_command_exits _ _ _ _ _ _ _ Hfunc).
    cbn [fst snd trace caller world after_func ret].
    destruct (Done [] eq_refl eq_refl eq_refl) as (D1 & D2 & D3 & D4).
    refine (conj D1 (conj D2 (conj D3 (conj D4 (conj _ Elig))))).
    split; reflexivity.
Qed.

(** The trace only grows along the loop, and a loop over a list that is
    not empty begins with the search of its first command. *)
Lemma for_commands_trace srv line cmds : forall i s,
  exists evs,
    trace (snd (for_commands search srv line i cmds s)) = trace s ++ evs
    /\ (cmds <> [] -> exists ns, searched evs = i :: ns).
Proof.
  induction cmds as [|cmd rest IH]; intros i s.
  - exists []. cbn. rewrite app_nil_r. split; [reflexivity|].
    intros N. contradiction N. reflexivity.
  - cbn [for_commands]. unfold bind at 1.
    destruct (try_match search line i cmd s) as [rt s1] eqn:T.
    destruct (try_match_trace _ _ _ _ _ _ T) as (evs1 & T1 & S1 & _).
    assert (forall s2 evs2,
              trace s2 = trace s1 ++ evs2 ->
              exists evs, trace s2 = trace s ++ evs
                          /\ (cmd :: rest <> [] ->
                               exists ns, searched evs = i :: ns)) as Done.
    { intros s2 evs2 T2. exists (evs1 ++ evs2). split.
      - rewrite T2, T1, app_assoc. reflexivity.
      - intros _. exists (searched evs2). rewrite searched_app, S1.
        reflexivity. }
    destruct rt as [[|]|e].
    + unfold bind at 1.
      destruct (func cmd (caller s1, world s1)) as [[[]|[|cls|cls]] [c w1]]
        eqn:F.
      * rewrite (run_command_returns _ _ _ _ _ _ F). cbn [snd ret].
        apply Done with (evs2 := [EvFunc i (caller s1)]). reflexivity.
      * rewrite (run_command_skips _ _ _ _ _ _ F).
        destruct (IH (S i) (after_func i s1 c w1)) as (evs2 & T2 & _).
        apply Done with (evs2 := [EvFunc i (caller s1)] ++ evs2).
        rewrite T2. cbn [after_func trace]. rewrite <- app_assoc.
        reflexivity.
      * destruct (on_error srv (with_exception c (ExceptionOf cls), w1))
          as [ro [c1 w2]] eqn:Eo.
        rewrite (run_command_fails _ _ _ _ _ _ _ _ _ _ F Eo).
        destruct ro as [[]|e]; cbn [snd ret];
          (eapply Done; cbn [trace]; reflexivity).
      * rewrite (run_command_exits _ _ _ _ _ _ _ F). cbn [snd].
        apply Done with (evs2 := [EvFunc i (caller s1)]). reflexivity.
    + destruct (IH (S i) s1) as (evs2 & T2 & _).
      apply Done with (evs2 := evs2). exact T2.
    + cbn [snd]. apply Done with (evs2 := []). rewrite app_nil_r.
      reflexivity.
Qed.


(** The [else] clause clears [match], calls [huh] and nothing else. *)
Lemma not_understood_runs srv s rh c1 w1 :
  huh srv (with_match (caller s) None, world s) = (rh, (c1, w1)) ->
  not_understood srv s
  = (rh, {| caller := c1; world := w1;
            trace := trace s ++ [EvHuh (with_match (caller s) None)] |}).
Proof.
  intros H. unfold with_match in H.
  unfold not_understood, bind, set_match, get_caller, emit, call.
  cbn [caller world trace]. rewrite H. reflexivity.
Qed.

Lemma loop_trace srv line cmds i s :
  exists evs,
    trace (snd (loop search srv line i cmds s)) = trace s ++ evs
    /\ (cmds <> [] -> exists ns, searched evs = i :: ns).
Proof.
  destruct (for_commands_trace srv line cmds i s) as (evs & T & S1).
  unfold loop, bind.
  destruct (for_commands search srv line i cmds s) as [[[|]|e] s1];
    cbn [snd] in T.
  - exists evs. split; [exact T | exact S1].
  - destruct (huh srv (with_match (caller s1) None, world s1))
      as [rh [c1 w1]] eqn:H.
    rewrite (not_understood_runs _ _ _ _ _ H). cbn [snd trace].
    exists (evs ++ [EvHuh (with_match (caller s1) None)]). split.
    + rewrite T, app_assoc. reflexivity.
    + intros N. destruct (S1 N) as (ns & E1).
      exists (ns ++ searched [EvHuh (with_match (caller s1) None)]).
      rewrite searched_app, E1. reflexivity.
  - exists evs. split; [exact T | exact S1].
Qed.

Variable sendLine : ConnId -> bytes -> M W unit.
Variable FmtArg : Type.
Variable percent : str -> FmtOperand FmtArg -> Res str.

(** A notification without arguments sends the encoded text as it is. *)
Lemma notify_plain con text payload w :
  encode text = Ok payload ->
  Server_notify sendLine percent (Some con) text [] [] w
  = sendLine con payload w.
Proof.
  intros E. unfold Server_notify, Server_format_text, bind, of_res.
  rewrite E. reflexivity.
Qed.

Lemma Server_on_error_sends (c : Caller Match) con w :
  connection c = Some con ->
  Server_on_error sendLine percent (c, w)
  = (fst (sendLine con (ascii_bytes "There was an error with your command.") w),
     (c, snd (sendLine con (ascii_bytes "There was an error with your command.") w))).
Proof.
  intros C. unfold Server_on_error, on_world. cbn [fst snd]. rewrite C.
  rewrite (notify_plain con _
             (ascii_bytes "There was an error with your command."))
    by (vm_compute; reflexivity).
  destruct (sendLine con _ w); reflexivity.
Qed.

Lemma Server_huh_sends (c : Caller Match) con w :
  connection c = Some con ->
  Server_huh sendLine percent (c, w)
  = (fst (sendLine con (ascii_bytes "I don't understand that.") w),
     (c, snd (sendLine con (ascii_bytes "I don't understand that.") w))).
Proof.
  intros C. unfold Server_huh, on_world. cbn [fst snd]. rewrite C.
  rewrite (notify_plain con _ (ascii_bytes "I don't understand that."))
    by (vm_compute; reflexivity).
  destruct (sendLine con _ w); reflexivity.
Qed.



(** C5.  No command is eligible: [match] is cleared on the [Caller], no
    handler is called, and [huh] is called once.  The outcome of
    [handle_line] and the world it leaves are those of [huh]; the [huh]
    of the base class sends the fixed message to the connection. *)
Theorem no_eligible_command_falls_back srv conn line w s0 s1 :
  gate srv (start conn line w) = (Ok true, s0) ->
  pass_over search line 0 (commands srv) s0 = Some s1 ->
  let out := Server_handle_line search srv conn line w in
  let tr := trace (snd out) in
  let lost := with_match (caller s1) None in
  match_ lost = None
  /\ huh_calls tr = [lost]
  /\ funcs_called tr = []
  /\ on_error_calls tr = []
  /\ searched tr = seq 0 (length (commands srv))
  /\ fst out = fst (huh srv (lost, world s1))
  /\ world (snd out) = snd (snd (huh srv (lost, world s1)))
  /\ (huh srv = Server_huh sendLine percent ->
      forall con, connection (caller s1) = Some con ->
      world (snd out)
      = snd (sendLine con (ascii_bytes "I don't understand that.")
               (world s1))).
Proof.
  intros Hgate Hpass out tr lost.
  destruct (pass_over_trace _ _ _ _ _ Hpass) as (evs & T & Sr & (F & E & H & L)).
  assert (out = not_understood srv s1) as Out.
  { subst out. unfold Server_handle_line. unfold bind at 1. rewrite Hgate.
    unfold loop. unfold bind at 1.
    rewrite <- (app_nil_r (commands srv)) at 1.
    rewrite (for_commands_pass_over _ _ _ _ _ _ _ Hpass). reflexivity. }
  destruct (huh srv (lost, world s1)) as [rh [c1 w2]] eqn:Hh.
  rewrite (not_understood_runs _ _ _ _ _ Hh) in Out.
  assert (tr = trace s1 ++ [EvHuh lost]) as Tr by (subst tr; rewrite Out; reflexivity).
  split; [reflexivity|].
  rewrite Tr, T, (gate_trace _ _ _ _ _ _ Hgate).
  repeat split; try (read_trace; rewrite ?F, ?E, ?H, ?L, ?Sr; reflexivity).
  - read_trace. rewrite Sr. cbn [searched flat_map app].
    rewrite !app_nil_r. reflexivity.
  - rewrite Out. reflexivity.
  - rewrite Out. reflexivity.
  - intros Hdefault con Hcon. rewrite Out. cbn [snd world].
    rewrite Hdefault in Hh.
    rewrite (Server_huh_sends lost con (world s1) Hcon) in Hh.
    inversion Hh. reflexivity.
Qed.

(** C7.  When [on_command] returns false, [handle_line] returns with
    nothing done beyond that call: no pattern is searched, no handler is
    called, and [huh] is not called. *)
Theorem on_command_false_suppresses_dispatch srv conn line w c0 w0 :
  on_command srv (Caller_new conn (Some line), w) = (Ok false, (c0, w0)) ->
  let out := Server_handle_line search srv conn line w in
  out = (Ok tt, {| caller := c0; world := w0;
                   trace := [EvOnCommand (Caller_new conn (Some line))] |})
  /\ searched (trace (snd out)) = []
  /\ funcs_called (trace (snd out)) = []
  /\ huh_calls (trace (snd out)) = []
  /\ on_error_calls (trace (snd out)) = [].
Proof.
  intros Hgate out.
  assert (out = (Ok tt, {| caller := c0; world := w0;
                           trace := [EvOnCommand
                                       (Caller_new conn (Some line))] |}))
    as Out.
  { subst out.
    unfold Server_handle_line, gate, start, bind, get_caller, emit, call, ret.
    cbn [caller world trace]. rewrite Hgate. reflexivity. }
  rewrite Out. repeat split.
Qed.

End DispatchProofs.

(* ================================================================== *)
(** ** Properties of the codecs *)


Lemma emit_char_ok c r :
  (exists s, r = Ok s) -> exists s, emit_char c r = Ok s.
Proof. intros [s ->]. eexists. reflexivity. Qed.

Lemma decode_error_ok errors r :
  errors <> Strict ->
  (exists s, r = Ok s) -> exists s, decode_error errors r = Ok s.
Proof.
  intros N [s ->]. destruct errors; [contradiction N; reflexivity | |];
    eexists; reflexivity.
Qed.

(** Closes a goal that says a decoder step returns, from the induction
    hypothesis [IH] on shorter inputs. *)
Ltac decoder_step IH N :=
  first
    [ apply emit_char_ok; apply IH; cbn [length] in *; lia
    | apply decode_error_ok; [exact N | apply IH; cbn [length] in *; lia]
    | apply decode_error_ok; [exact N | eexists; reflexivity] ].

Lemma utf8_decode_total errors :
  errors <> Strict ->
  forall n bs, length bs <= n -> exists s, utf8_decode errors bs = Ok s.
Proof.
  intros N. induction n as [|n IH]; intros bs L.
  - destruct bs; [eexists; reflexivity | cbn [length] in L; lia].
  - destruct bs as [|b0 t0]; [eexists; reflexivity|].
    cbn [utf8_decode].
    repeat first
      [ match goal with
        | |- context [if ?c then _ else _] => destruct c
        end
      | match goal with
        | |- context [match ?l with [] => _ | _ :: _ => _ end] =>
            is_var l; destruct l; cbv beta iota
        end ];
      decoder_step IH N.
Qed.

Lemma ascii_decode_total errors :
  errors <> Strict ->
  forall bs, exists s, ascii_decode errors bs = Ok s.
Proof.
  intros N. induction bs as [|b0 t0 IH]; [eexists; reflexivity|].
  cbn [ascii_decode]. destruct (Byte.to_N b0 <? 128)%N.
  - apply emit_char_ok, IH.
  - apply decode_error_ok; [exact N | exact IH].
Qed.

(** Under a lossy policy [decode] returns a text, whatever the bytes. *)
Lemma decode_total args bs :
  lossy args = true -> exists s, decode args bs = Ok s.
Proof.
  destruct args as [enc errors]. unfold lossy, decode. cbn [fst snd].
  intros L.
  assert (errors <> Strict) as N by (intros ->; discriminate).
  destruct enc.
  - apply (utf8_decode_total errors N (length bs)). lia.
  - apply ascii_decode_total. exact N.
  - eexists. reflexivity.
Qed.

(* ================================================================== *)
(** ** Properties of the [Protocol] methods *)

Section ProtocolProofs.

Variable W : Type.
Variables Regexp Match : Type.
Variable sendLine : ConnId -> bytes -> M W unit.
Variable FmtArg : Type.
Variable percent : str -> FmtOperand FmtArg -> Res str.
Variable parsers : ParserId -> Parser W.
Variable Parser_eq : ParserId -> ParserId -> bool.
Variable peers : ConnId -> Protocol.

Implicit Types srv : Server W Regexp Match.
Implicit Types s : PState W.

Local Abbreviation attached := (@attached W).







Lemma triple_bind {A B : Type} P (m : M (PState W) A) Q
    (k : A -> M (PState W) B) R E :
  triple P m Q E -> (forall a, triple (Q a) (k a) R E) ->
  triple P (bind m k) R E.
Proof.
  intros Hm Hk s Ps. unfold bind. specialize (Hm s Ps).
  destruct (m s) as [[a|e] s1]; [apply Hk; exact Hm | exact Hm].
Qed.

Lemma triple_ret {A : Type} (P : PState W -> Prop) (a : A) E :
  triple P (ret a) (fun _ => P) E.
Proof. intros s Ps. exact Ps. Qed.

Lemma triple_weaken {A : Type} (P P1 : PState W -> Prop)
    (m : M (PState W) A) (Q Q1 : A -> PState W -> Prop) E :
  triple P1 m Q1 E -> (forall s, P s -> P1 s) ->
  (forall a s, Q1 a s -> Q a s) -> triple P m Q E.
Proof.
  intros Hm HP HQ s Ps. specialize (Hm s (HP s Ps)).
  destruct (m s) as [[a|e] s1]; [apply HQ; exact Hm | exact Hm].
Qed.

(** Steps that leave [self] alone keep the parser. *)
Lemma pemit_attached ev : triple attached (pemit ev) (fun _ => attached) attached.
Proof. intros s Ps. exact Ps. Qed.

Lemma put_logger_attached lg :
  triple attached (put_logger lg) (fun _ => attached) attached.
Proof. intros s Ps. exact Ps. Qed.

Lemma getattr_attached {A : Type} (a : Attr A) :
  triple attached (getattr a) (fun _ => attached) attached.
Proof. intros s Ps. destruct a; exact Ps. Qed.

Lemma pcall_attached {A : Type} (f : ConnCode W A) :
  keeps_parser f -> triple attached (pcall f) (fun _ => attached) attached.
Proof.
  intros K s Ps. unfold pcall. specialize (K (self s) (pworld s) Ps).
  destruct (f (self s, pworld s)) as [[a|e] [p1 w1]]; exact K.
Qed.

Lemma call_on_attach_attached p old_parser :
  (forall q ctx, keeps_parser (on_attach (parsers q) ctx)) ->
  triple attached (call_on_attach parsers p old_parser)
    (fun _ => attached) attached.
Proof.
  intros K. destruct p as [p|]; cbn [call_on_attach].
  - eapply triple_bind; [apply pemit_attached|].
    intros ?. apply pcall_attached, K.
  - intros s Ps. exact Ps.
Qed.

(** The value that [or_default] returns is a parser, unless the server's
    [default_parser] is [None]. *)
Lemma or_default_attached srv value :
  default_parser srv <> Has None ->
  triple attached (or_default srv value)
    (fun v s => attached s /\ v <> None) attached.
Proof.
  intros D s Ps. unfold or_default.
  destruct value as [v|].
  - split; [exact Ps | discriminate].
  - unfold bind, getattr, get_self, pemit, ret, raise.
    destruct (default_parser srv) as [|[d|]]; [exact Ps | | contradiction D; reflexivity].
    cbn [self]. destruct (logger (self s)); [exact Ps|].
    split; [exact Ps | discriminate].
Qed.

Lemma set_parser_attached srv value :
  (forall q ctx, keeps_parser (on_attach (parsers q) ctx)) ->
  (forall q ctx, keeps_parser (on_detach (parsers q) ctx)) ->
  default_parser srv <> Has None ->
  triple attached (Protocol_set_parser parsers srv value)
    (fun _ => attached) attached.
Proof.
  intros Ka Kd D. unfold Protocol_set_parser.
  eapply triple_bind with (Q := fun _ => attached); [intros s Ps; exact Ps|].
  intros me. eapply triple_bind with (Q := fun _ => attached).
  - destruct (_parser me) as [old|].
    + unfold call_on_detach. eapply triple_bind; [apply pemit_attached|].
      intros ?. apply pcall_attached, Kd.
    + apply triple_ret.
  - intros ?. eapply triple_bind; [apply or_default_attached, D|].
    intros v. eapply triple_bind with (Q := fun _ => attached).
    + intros s [Ps Nv]. exact Nv.
    + intros ?. apply call_on_attach_attached, Ka.
Qed.

Lemma lineReceived_attached line :
  (forall q text, keeps_parser (handle_line (parsers q) text)) ->
  triple attached (Protocol_lineReceived parsers line)
    (fun _ => attached) attached.
Proof.
  intros Kh. unfold Protocol_lineReceived.
  eapply triple_bind with (Q := fun _ => attached); [intros s Ps; exact Ps|].
  intros me. eapply triple_bind with (Q := fun _ => attached).
  { intros s Ps. unfold of_res. destruct (decode _ _); exact Ps. }
  intros text. eapply triple_bind with (Q := fun _ => attached);
    [intros s Ps; exact Ps|].
  intros me1. destruct (Protocol_parser me1) as [p|].
  - eapply triple_bind; [apply pemit_attached|].
    intros ?. apply pcall_attached, Kh.
  - intros s Ps. exact Ps.
Qed.

Lemma connectionMade_attached srv :
  (forall q ctx, keeps_parser (on_attach (parsers q) ctx)) ->
  keeps_parser (on_connect srv) ->
  triple attached (Protocol_connectionMade parsers srv)
    (fun _ => attached) attached.
Proof.
  intros Ka Kc. unfold Protocol_connectionMade.
  eapply triple_bind with (Q := fun _ => attached); [intros s Ps; exact Ps|].
  intros me. eapply triple_bind; [apply put_logger_attached|].
  intros ?. eapply triple_bind with (Q := fun _ => attached);
    [intros s Ps; exact Ps|].
  intros ?. eapply triple_bind; [apply pemit_attached|].
  intros ?. eapply triple_bind; [apply pcall_attached, Kc|].
  intros ?. eapply triple_bind with (Q := fun _ => attached);
    [intros s Ps; exact Ps|].
  intros me1. destruct (Protocol_parser me1) as [p|].
  - apply call_on_attach_attached, Ka.
  - apply triple_ret.
Qed.

Lemma connectionLost_attached srv reason :
  keeps_parser (on_disconnect srv) ->
  triple attached (Protocol_connectionLost Parser_eq peers srv reason)
    (fun _ => attached) attached.
Proof.
  intros Kd. unfold Protocol_connectionLost.
  eapply triple_bind with (Q := fun _ => attached).
  { intros s Ps. destruct (existsb _ _); exact Ps. }
  intros ?. eapply triple_bind with (Q := fun _ => attached);
    [intros s Ps; exact Ps|].
  intros me. eapply triple_bind; [apply getattr_attached|].
  intros lg. eapply triple_bind; [apply pemit_attached|].
  intros ?. eapply triple_bind; [apply pemit_attached|].
  intros ?. apply pcall_attached, Kd.
Qed.

Lemma notify_attached text args kwargs :
  triple attached (Protocol_notify sendLine percent text args kwargs)
    (fun _ => attached) attached.
Proof.
  intros s Ps. unfold Protocol_notify.
  destruct (Server_notify _ _ _ _ _ _ _) as [[a|e] w1]; exact Ps.
Qed.

(** Each operation keeps the parser, whether it returns or raises. *)
Lemma run_op_attached srv op s :
  (forall q ctx, keeps_parser (on_attach (parsers q) ctx)) ->
  (forall q ctx, keeps_parser (on_detach (parsers q) ctx)) ->
  (forall q text, keeps_parser (handle_line (parsers q) text)) ->
  keeps_parser (on_connect srv) ->
  keeps_parser (on_disconnect srv) ->
  default_parser srv <> Has None ->
  attached s ->
  attached
    (snd (run_op sendLine percent parsers Parser_eq peers srv op s)).
Proof.
  intros Ka Kd Kh Kc Kl D Ps.
  assert (triple attached
            (run_op sendLine percent parsers Parser_eq peers srv op)
            (fun _ => attached) attached) as T.
  { destruct op; cbn [run_op].
    - apply set_parser_attached; assumption.
    - apply lineReceived_attached; assumption.
    - apply connectionMade_attached; assumption.
    - apply connectionLost_attached; assumption.
    - apply notify_attached. }
  specialize (T s Ps).
  destruct (run_op sendLine percent parsers Parser_eq peers srv op s)
    as [[a|e] s1]; exact T.
Qed.

(** C2, as amended.  A connection that has a parser keeps having one
    through every sequence of operations (the parser setter,
    [lineReceived], [connectionMade], [connectionLost], [notify]),
    whether an operation returns or raises, provided that the server's
    [default_parser], if it has one, is not [None], and that the user
    code called with the connection does not take the parser away. *)
Theorem attached_parser_stays_attached srv ops : forall s,
  (forall q ctx, keeps_parser (on_attach (parsers q) ctx)) ->
  (forall q ctx, keeps_parser (on_detach (parsers q) ctx)) ->
  (forall q text, keeps_parser (handle_line (parsers q) text)) ->
  keeps_parser (on_connect srv) ->
  keeps_parser (on_disconnect srv) ->
  default_parser srv <> Has None ->
  Protocol_parser (self s) <> None ->
  Protocol_parser
    (self (run_ops sendLine percent parsers Parser_eq peers srv ops s))
  <> None.
Proof.
  induction ops as [|op rest IH]; intros s Ka Kd Kh Kc Kl D Ps.
  - exact Ps.
  - cbn [run_ops]. apply IH; try assumption.
    apply run_op_attached; assumption.
Qed.

(** A quiet hook, called: the call is on record and the world is what
    the hook makes of it. *)
Lemma call_on_detach_quiet p ctx s :
  quiet (on_detach (parsers p) ctx) ->
  call_on_detach parsers p ctx s
  = (Ok tt,
     {| self := self s; connections := connections s;
        pworld := snd (snd (on_detach (parsers p) ctx (self s, pworld s)));
        ptrace := ptrace s ++ [EvDetach p ctx] |}).
Proof.
  intros Q. unfold call_on_detach, bind, pemit, pcall.
  cbn [self connections pworld ptrace].
  destruct (Q (self s) (pworld s)) as [R P].
  destruct (on_detach (parsers p) ctx (self s, pworld s)) as [r [p1 w1]].
  cbn [fst snd] in *. subst r p1. reflexivity.
Qed.

Lemma call_on_attach_quiet p ctx s :
  quiet (on_attach (parsers p) ctx) ->
  call_on_attach parsers (Some p) ctx s
  = (Ok tt,
     {| self := self s; connections := connections s;
        pworld := snd (snd (on_attach (parsers p) ctx (self s, pworld s)));
        ptrace := ptrace s ++ [EvAttach p ctx] |}).
Proof.
  intros Q. unfold call_on_attach, bind, pemit, pcall.
  cbn [self connections pworld ptrace].
  destruct (Q (self s) (pworld s)) as [R P].
  destruct (on_attach (parsers p) ctx (self s, pworld s)) as [r [p1 w1]].
  cbn [fst snd] in *. subst r p1. reflexivity.
Qed.

(** C6.  The parser setter, with hooks that return: the detach hook of
    the attached parser, if there is one, is called with the value
    given; when the value is [None] the server's default parser takes
    its place and a warning is logged; the attach hook of the new parser
    is called with the parser that was attached before; and the new
    parser is the connection's parser afterwards.  The world is what the
    two hooks make of it, the detach hook first. *)
Theorem set_parser_detaches_then_attaches srv value s new lg :
  (forall q ctx, quiet (on_detach (parsers q) ctx)) ->
  (forall q ctx, quiet (on_attach (parsers q) ctx)) ->
  match value with
  | Some v => new = v
  | None => default_parser srv = Has (Some new) /\ logger (self s) = Has lg
  end ->
  let out := Protocol_set_parser parsers srv value s in
  let old_parser := Protocol_parser (self s) in
  let w1 := match old_parser with
            | Some old => snd (snd (on_detach (parsers old) value
                                      (self s, pworld s)))
            | None => pworld s
            end in
  fst out = Ok tt
  /\ ptrace (snd out)
     = ptrace s
       ++ match old_parser with
          | Some old => [EvDetach old value]
          | None => []
          end
       ++ match value with
          | None => [EvWarning lg (Some new)]
          | Some _ => []
          end
       ++ [EvAttach new old_parser]
  /\ Protocol_parser (self (snd out)) = Some new
  /\ pworld (snd out)
     = snd (snd (on_attach (parsers new) old_parser
                   (with_parser (self s) (Some new), w1))).
Proof.
  intros Qd Qa Hv out old_parser w1.
  set (s1 := {| self := self s; connections := connections s; pworld := w1;
                ptrace := ptrace s
                          ++ match old_parser with
                             | Some old => [EvDetach old value]
                             | None => []
                             end |}).
  assert (match old_parser with
          | Some old => call_on_detach parsers old value
          | None => ret tt
          end s = (Ok tt, s1)) as D1.
  { subst s1 w1. destruct old_parser as [old|].
    - apply call_on_detach_quiet, Qd.
    - rewrite app_nil_r. destruct s; reflexivity. }
  set (s2 := {| self := self s; connections := connections s; pworld := w1;
                ptrace := ptrace s1
                          ++ match value with
                             | None => [EvWarning lg (Some new)]
                             | Some _ => []
                             end |}).
  assert (or_default srv value s1 = (Ok (Some new), s2)) as D2.
  { subst s2. unfold or_default. destruct value as [v|].
    - subst v. rewrite app_nil_r. reflexivity.
    - destruct Hv as [Hd Hl].
      unfold bind, getattr, get_self, pemit, ret. rewrite Hd.
      cbn [self s1]. rewrite Hl. reflexivity. }
  assert (out
          = call_on_attach parsers (Some new) old_parser
              {| self := with_parser (self s) (Some new);
                 connections := connections s; pworld := w1;
                 ptrace := ptrace s2 |}) as Out.
  { subst out. unfold Protocol_set_parser.
    unfold bind at 1. unfold get_self at 1.
    unfold bind at 1. fold old_parser. unfold Protocol_parser in old_parser.
    fold old_parser. rewrite D1.
    unfold bind at 1. rewrite D2.
    unfold bind at 1. reflexivity. }
  rewrite (call_on_attach_quiet new old_parser _ (Qa new old_parser)) in Out.
  rewrite Out. cbn [fst snd self connections pworld ptrace s2 s1].
  rewrite <- !app_assoc. repeat split.
Qed.

(** C9.  The decode policy of a new connection is the default encoding
    with errors ignored; and under any policy that is lossy, whatever
    the bytes of the line, decoding returns a text and [lineReceived]
    hands that text to the line handler of the attached parser. *)
Theorem lineReceived_decodes_and_hands_over :
  (forall i h n parser,
     decode_args (Protocol_new i h n parser) = (getdefaultencoding, Ignore)
     /\ lossy (decode_args (Protocol_new i h n parser)) = true)
  /\ (forall line s p,
        lossy (decode_args (self s)) = true ->
        Protocol_parser (self s) = Some p ->
        exists decoded,
          decode (decode_args (self s)) line = Ok decoded
          /\ Protocol_lineReceived parsers line s
             = (pemit (EvHandleLine p decoded) ;;;
                pcall (handle_line (parsers p) decoded)) s).
Proof.
  split.
  - intros i h n parser. split; reflexivity.
  - intros line s p L P.
    destruct (decode_total (decode_args (self s)) line L) as [decoded D].
    exists decoded. split; [exact D|].
    unfold Protocol_lineReceived.
    unfold bind at 1. unfold get_self at 1.
    unfold bind at 1. unfold of_res. rewrite D.
    unfold bind at 1. unfold get_self at 1. rewrite P. reflexivity.
Qed.

(** C10.  The parser setter called with [None] on a connection that has
    a parser, on a server whose default parser is [d]: the detach hook
    of the old parser is called first, with [None] and not with [d],
    and it is the only detach hook called.  When it has returned, [d] is
    stored as the connection's parser and the attach hook of [d] is
    called with the old parser, on the connection that has [d] for
    parser already and in the world the detach hook left.  The setter
    ends as that attach hook does, and the connection is as the hook
    left it: with [d] for parser when the hook does not change it. *)
Theorem detach_hook_is_told_None srv s old d p1 w1 lg r2 p2 w2 :
  Protocol_parser (self s) = Some old ->
  default_parser srv = Has (Some d) ->
  on_detach (parsers old) None (self s, pworld s) = (Ok tt, (p1, w1)) ->
  logger p1 = Has lg ->
  on_attach (parsers d) (Some old) (with_parser p1 (Some d), w1)
  = (r2, (p2, w2)) ->
  let out := Protocol_set_parser parsers srv None s in
  out = (r2, {| self := p2; connections := connections s; pworld := w2;
                ptrace := ptrace s ++ [EvDetach old None;
                                       EvWarning lg (Some d);
                                       EvAttach d (Some old)] |})
  /\ (forall p ctx, In (EvDetach p ctx) (ptrace (snd out)) ->
        In (EvDetach p ctx) (ptrace s) \/ (p = old /\ ctx = None))
  /\ Protocol_parser (with_parser p1 (Some d)) = Some d
  /\ (p2 = with_parser p1 (Some d) ->
      Protocol_parser (self (snd out)) = Some d).
Proof.
  intros P D Hd L Ha out.
  assert (out = (r2, {| self := p2; connections := connections s;
                        pworld := w2;
                        ptrace := ptrace s ++ [EvDetach old None;
                                               EvWarning lg (Some d);
                                               EvAttach d (Some old)] |}))
    as E.
  { subst out. unfold Protocol_parser in P. unfold with_parser in Ha.
    unfold Protocol_set_parser, call_on_detach, or_default, call_on_attach.
    unfold bind, get_self, pemit, pcall, put_parser, getattr, ret, raise.
    cbn [self connections pworld ptrace]. rewrite P.
    cbn [self connections pworld ptrace]. rewrite Hd.
    cbn [fst snd self connections pworld ptrace]. rewrite D.
    cbn [fst snd self connections pworld ptrace]. rewrite L.
    cbn [fst snd self connections pworld ptrace]. rewrite Ha.
    cbn [fst snd self connections pworld ptrace].
    rewrite <- !app_assoc. reflexivity. }
  split; [exact E|]. rewrite E. cbn [snd self ptrace].
  split; [|split].
  - intros p ctx Hin. apply in_app_or in Hin.
    destruct Hin as [Hin|[Hin|[Hin|[Hin|[]]]]].
    + left. exact Hin.
    + right. inversion Hin. split; reflexivity.
    + discriminate.
    + discriminate.
  - reflexivity.
  - intros ->. reflexivity.
Qed.

End ProtocolProofs.

(* ================================================================== *)
(** ** Properties of menu resolution *)

Lemma str_eqb_eq a : forall b, str_eqb a b = true <-> a = b.
Proof.
  induction a as [|x a IH]; intros [|y b]; cbn [str_eqb]; split;
    try discriminate; try reflexivity.
  - intros H. apply andb_true_iff in H. destruct H as [H1 H2].
    apply N.eqb_eq in H1. apply IH in H2. subst. reflexivity.
  - intros H. inversion H; subst. apply andb_true_iff. split.
    + apply N.eqb_refl.
    + apply IH. reflexivity.
Qed.

Section InterceptProofs.

Variable W : Type.
Variable sendLine : ConnId -> bytes -> M W unit.
Variable FmtArg : Type.
Variable percent : str -> FmtOperand FmtArg -> Res str.
Variables not_found_text ambiguous_text : str.

Implicit Types m : Menu W.
Implicit Types item : MenuItem W.

Lemma numbered_app (a b : list (MenuItem W)) : forall i,
  numbered i (a ++ b) = numbered i a ++ numbered (length a + i) b.
Proof.
  induction a as [|x a IH]; intros i; cbn [numbered app length].
  - reflexivity.
  - rewrite IH. do 3 f_equal. lia.
Qed.

(** The items that [matching] collects are the items whose label
    matches, in order. *)
Lemma matching_items input (l : list (MenuItem W)) : forall i,
  map snd (filter (fun p => label_matches input (snd p)) (numbered i l))
  = filter (label_matches input) l.
Proof.
  induction l as [|x l IH]; intros i; cbn [numbered filter map snd].
  - reflexivity.
  - destruct (label_matches input x); cbn [map snd]; rewrite IH; reflexivity.
Qed.

(** Each numbered item stands at its number. *)
Lemma numbered_nth (l : list (MenuItem W)) : forall i j item,
  In (j, item) (numbered i l) -> i <= j /\ nth_error l (j - i) = Some item.
Proof.
  induction l as [|x l IH]; intros i j item H; cbn [numbered In] in H.
  - contradiction.
  - destruct H as [H|H].
    + inversion H; subst. rewrite Nat.sub_diag. split; [lia | reflexivity].
    + destruct (IH _ _ _ H) as [L N]. split; [lia|].
      replace (j - i) with (S (j - S i)) by lia. exact N.
Qed.


End InterceptProofs.

(* ================================================================== *)
(** ** The theorems at work on the small server *)

(** [test_handle_line] of the test file (lines 76-84), with the
    [sendLine] of [_TestProtocol]: [good] and [bad] run their commands
    and send nothing; [nothing] matches no command, and the notification
    of [huh] raises [NotifyException]. *)
Example test_handle_line :
  let srv := Server_base test_sendLine no_percent [good_command; bad_command] in
  let run (line : string) :=
    Server_handle_line pattern_search srv (Some 1) (lit line) [] in
  (fst (run "good"%string), world (snd (run "good"%string))) = (Ok tt, [Did "good"])
  /\ (fst (run "nothing"%string), world (snd (run "nothing"%string)))
     = (Raise (ExceptionOf "NotifyException"),
        [Sent 1 (ascii_bytes "I don't understand that.")])
  /\ (fst (run "bad"%string), world (snd (run "bad"%string))) = (Ok tt, [Did "bad"]).
Proof. repeat split. Qed.

(** [test_menu] of the test file (lines 99-106): [$] is the third item,
    [first] the first, and [thing] is in every label. *)
Example test_menu_match :
  Menu_match test_menu (lit "$")
  = Chosen 2 (mkMenuItem (lit "Third Thing") (raising "3" (ExceptionOf "MenuItem3")))
  /\ Menu_match test_menu (lit "first")
     = Chosen 0 (mkMenuItem (lit "First Thing") (raising "1" (ExceptionOf "MenuItem1")))
  /\ Menu_match test_menu (lit "thing") = Ambiguous
  /\ Menu_match test_menu (lit "nothing") = NotFound.
Proof. repeat split. Qed.

(** The commands [bad], [plain], [failing], [good] and the line [go]:
    [bad] does not match, [plain] and [failing] both do, and [plain],
    registered first, is the one that runs: its note is all there is
    in the world after the call. *)
Lemma first_eligible_command_wins_witness :
  let srv := server_of [bad_command; plain_command; failing_command;
                        good_command] in
  let out := Server_handle_line pattern_search srv (Some 1) (lit "go") [] in
  funcs_called (trace (snd out)) = [1]
  /\ searched (trace (snd out)) = [0; 1]
  /\ huh_calls (trace (snd out)) = []
  /\ fst out = Ok tt
  /\ world (snd out) = [Did "plain"].
Proof.
  intros srv out.
  destruct (first_eligible_command_wins World Pattern str pattern_search
              srv (Some 1) (lit "go") [] [bad_command] plain_command
              [failing_command; good_command]
              (snd (gate srv (start (Some 1) (lit "go") [])))
              (snd (try_match pattern_search (lit "go") 0 bad_command
                      (snd (gate srv (start (Some 1) (lit "go") [])))))
              (snd (try_match pattern_search (lit "go") 1 plain_command
                      (snd (try_match pattern_search (lit "go") 0 bad_command
                              (snd (gate srv (start (Some 1) (lit "go") [])))))))
              (Ok tt)
              (mkCaller (Some 1) (Some (lit "go")) (Some (lit "go")) None,
               [Did "plain"]))
    as (F & _ & S & H & (R & CW) & _);
    [reflexivity | reflexivity | reflexivity | reflexivity | reflexivity
    | discriminate | ].
  exact (conj F (conj S (conj H (conj R (f_equal snd CW))))).
Defined.



(** The commands [good], [bad] and the line [nothing] (the test file's
    second line): no command runs, [huh] is called with [match] cleared
    and its message goes to connection 1. *)
Lemma no_eligible_command_falls_back_witness :
  let srv := server_of [good_command; bad_command] in
  let out := Server_handle_line pattern_search srv (Some 1) (lit "nothing") [] in
  huh_calls (trace (snd out))
  = [mkCaller (Some 1) (Some (lit "nothing")) None None]
  /\ funcs_called (trace (snd out)) = []
  /\ world (snd out) = [Sent 1 (ascii_bytes "I don't understand that.")].
Proof.
  intros srv out.
  destruct (no_eligible_command_falls_back World Pattern str pattern_search
              wire_sendLine Empty_set no_percent
              srv (Some 1) (lit "nothing") []
              (snd (gate srv (start (Some 1) (lit "nothing") [])))
              (snd (try_match pattern_search (lit "nothing") 1 bad_command
                      (snd (try_match pattern_search (lit "nothing") 0
                              good_command
                              (snd (gate srv
                                      (start (Some 1) (lit "nothing") [])))))))
           )
    as (_ & H & F & _ & _ & _ & _ & D);
    [reflexivity | reflexivity | ].
  exact (conj H (conj F (D eq_refl 1 eq_refl))).
Defined.

(** A server whose [on_command] returns false, and the line [good]:
    nothing is searched or called. *)
Lemma on_command_false_suppresses_dispatch_witness :
  let srv := closed_server [good_command; bad_command] in
  let out := Server_handle_line pattern_search srv (Some 1) (lit "good") [] in
  searched (trace (snd out)) = []
  /\ funcs_called (trace (snd out)) = []
  /\ huh_calls (trace (snd out)) = []
  /\ world (snd out) = [].
Proof.
  intros srv out.
  destruct (on_command_false_suppresses_dispatch World Pattern str
              pattern_search srv (Some 1) (lit "good") []
              (Caller_new (Some 1) (Some (lit "good"))) [])
    as (O & S & F & H & _); [reflexivity|].
  split; [exact S|]. split; [exact F|]. split; [exact H|].
  fold out in O. rewrite O. reflexivity.
Defined.


(** A connection made with [parser=None] has no parser, and
    [connectionMade] leaves it so; and with a server whose
    [default_parser] is [None], the setter called with [None] takes the
    parser of a connection away. *)
Lemma parser_can_be_absent :
  Protocol_parser (Protocol_new 1 "127.0.0.1" 1987 None) = None
  /\ (let made := Protocol_connectionMade the_parsers
                    (server_with_default (Some 0))
                    (fresh (Protocol_new 1 "127.0.0.1" 1987 None)) in
      fst made = Ok tt /\ Protocol_parser (self (snd made)) = None)
  /\ Protocol_parser (self connected) = Some 0
  /\ (let set := Protocol_set_parser the_parsers (server_with_default None)
                   None connected in
      fst set = Raise AttributeError
      /\ Protocol_parser (self (snd set)) = None).
Proof. repeat split. Qed.

Lemma the_parsers_keep_parser :
  (forall q ctx, keeps_parser (on_attach (the_parsers q) ctx))
  /\ (forall q ctx, keeps_parser (on_detach (the_parsers q) ctx))
  /\ (forall q text, keeps_parser (handle_line (the_parsers q) text)).
Proof.
  repeat split; intros [|q] x p w H; cbn [the_parsers on_attach on_detach
    handle_line hook fst snd]; try exact H.
  destruct (Server_handle_line _ _ _ _ _) as [r d]. exact H.
Defined.

Lemma the_parsers_are_quiet :
  (forall q ctx, quiet (on_detach (the_parsers q) ctx))
  /\ (forall q ctx, quiet (on_attach (the_parsers q) ctx)).
Proof. repeat split; destruct q; reflexivity. Defined.

(** The test connection through its life: made, its parser set to
    [None] and to parser 3, a line with an undecodable byte, a
    notification, and the loss of the connection. *)
Lemma attached_parser_stays_attached_witness :
  Protocol_parser
    (self (run_ops wire_sendLine no_percent the_parsers the_Parser_eq
             the_peers (server_with_default (Some 0))
             [ConnectionMade; SetParser None; LineReceived [x67; xff; x6f];
              SetParser (Some 3); Notify (lit "hello") [] [];
              ConnectionLost (lit "bye")]
             (fresh test_protocol)))
  <> None.
Proof.
  apply (attached_parser_stays_attached World Pattern str wire_sendLine
           Empty_set no_percent the_parsers the_Parser_eq the_peers
           (server_with_default (Some 0))).
  - exact (proj1 the_parsers_keep_parser).
  - exact (proj1 (proj2 the_parsers_keep_parser)).
  - exact (proj2 (proj2 the_parsers_keep_parser)).
  - intros p w H. exact H.
  - intros p w H. exact H.
  - discriminate.
  - discriminate.
Defined.

(** The setter called with [None] on the connected test connection, the
    server's default parser being parser 2: parser 0 is detached,
    the warning is logged, parser 2 is attached. *)
Lemma set_parser_detaches_then_attaches_witness :
  let out := Protocol_set_parser the_parsers (server_with_default (Some 2))
               None connected in
  fst out = Ok tt
  /\ ptrace (snd out)
     = [EvOnConnect; EvAttach 0 None;
        EvDetach 0 None; EvWarning ("127.0.0.1"%string, 1987%Z) (Some 2);
        EvAttach 2 (Some 0)]
  /\ Protocol_parser (self (snd out)) = Some 2
  /\ pworld (snd out) = [Did "attach 0"; Did "detach 0"; Did "attach"].
Proof.
  exact (set_parser_detaches_then_attaches World Pattern str the_parsers
           (server_with_default (Some 2)) None connected 2
           ("127.0.0.1"%string, 1987%Z)
           (proj1 the_parsers_are_quiet) (proj2 the_parsers_are_quiet)
           (conj eq_refl eq_refl)).
Defined.

(** The line [g], an undecodable byte, [ood] on the connected test
    connection: the byte is dropped and [good] goes to parser 0. *)
Lemma lineReceived_decodes_and_hands_over_witness :
  exists decoded,
    decode (decode_args (self connected)) [x67; xff; x6f; x6f; x64]
    = Ok decoded
    /\ Protocol_lineReceived the_parsers [x67; xff; x6f; x6f; x64] connected
       = (pemit (EvHandleLine 0 decoded) ;;;
          pcall (handle_line (the_parsers 0) decoded)) connected.
Proof.
  exact (proj2 (lineReceived_decodes_and_hands_over World the_parsers)
           [x67; xff; x6f; x6f; x64] connected 0 eq_refl eq_refl).
Defined.

(** The setter called with [None] on the connected test connection, the
    server's default parser being parser 2: the detach hook of parser 0
    is told [None], the setter returns, and parser 2 is the parser of
    the connection. *)
Lemma detach_hook_is_told_None_witness :
  let out := Protocol_set_parser the_parsers (server_with_default (Some 2))
               None connected in
  fst out = Ok tt
  /\ Protocol_parser (self (snd out)) = Some 2
  /\ ptrace (snd out)
     = ptrace connected
       ++ [EvDetach 0 None; EvWarning ("127.0.0.1"%string, 1987%Z) (Some 2);
           EvAttach 2 (Some 0)]
  /\ pworld (snd out) = pworld connected ++ [Did "detach 0"; Did "attach"].
Proof.
  intros out.
  destruct (detach_hook_is_told_None World Pattern str the_parsers
              (server_with_default (Some 2)) connected 0 2
              (self connected) (pworld connected ++ [Did "detach 0"])
              ("127.0.0.1"%string, 1987%Z) (Ok tt)
              (with_parser (self connected) (Some 2))
              (pworld connected ++ [Did "detach 0"; Did "attach"])
              eq_refl eq_refl eq_refl eq_refl eq_refl)
    as (E & _ & _ & P).
  fold out in E, P.
  split; [rewrite E; reflexivity|].
  split; [exact (P eq_refl)|].
  rewrite E. split; reflexivity.
Defined.


(** The same line under the [strict] handler: decoding raises, and
    [lineReceived] with it, before any parser is called. *)
Example strict_policy_raises :
  let strict := mkPState
                  (mkProtocol 1 "127.0.0.1" 1987 (Some 0)
                     (UTF8, Replace) (UTF8, Strict)
                     (Has ("127.0.0.1"%string, 1987%Z)))
                  [1] [] [] in
  Protocol_lineReceived the_parsers [x67; xff; x6f; x6f; x64] strict
  = (Raise UnicodeDecodeError, strict).
Proof. reflexivity. Qed.

(** A guard decides: [guarded] is for connection 2 alone, so the line
    [go] runs it for connection 2 and runs [plain], registered after
    it, for connection 1. *)
Example guard_decides_eligibility :
  let srv := server_of [guarded_command; plain_command] in
  let run con := Server_handle_line pattern_search srv (Some con) (lit "go") [] in
  (funcs_called (trace (snd (run 2))), world (snd (run 2)))
  = ([0], [Did "guarded"])
  /\ (funcs_called (trace (snd (run 1))), world (snd (run 1)))
     = ([1], [Did "plain"]).
Proof. split; reflexivity. Qed.

(* ================================================================== *)
(** ** More on the dispatch loop: what every pass has in common *)

Section LoopProofs.

Variable W : Type.
Variables Regexp Match : Type.
Variable search : Regexp -> str -> option Match.

Implicit Types srv : Server W Regexp Match.
Implicit Types cmd : Command W Regexp Match.
Implicit Types s : DState W Match.
Implicit Types evs : list (Event Match).

Local Abbreviation loop_record := (@loop_record W Regexp Match search).

Ltac read_events :=
  repeat rewrite ?funcs_called_app, ?searched_app, ?on_error_calls_app,
    ?huh_calls_app, ?logged_app, ?length_app.

Lemma in_funcs_called evs j (c : Caller Match) :
  In (EvFunc j c) evs -> In j (funcs_called evs).
Proof.
  intros H. unfold funcs_called. apply in_flat_map.
  exists (EvFunc j c). split; [exact H | left; reflexivity].
Qed.

(** The loop continues past a list of commands exactly when it runs out
    of them. *)
Lemma for_commands_app srv line l l1 : forall i s,
  for_commands search srv line i (l ++ l1) s
  = match for_commands search srv line i l s with
    | (Ok false, s1) => for_commands search srv line (length l + i) l1 s1
    | r => r
    end.
Proof.
  induction l as [|cmd rest IH]; intros i s.
  - reflexivity.
  - cbn [app for_commands length]. unfold bind.
    destruct (try_match search line i cmd s) as [[[|]|e] s1].
    + destruct (run_command srv i cmd s1) as [[[|]|e] s2].
      * reflexivity.
      * rewrite IH. replace (length rest + S i) with (S (length rest) + i) by lia.
        reflexivity.
      * reflexivity.
    + rewrite IH. replace (length rest + S i) with (S (length rest) + i) by lia.
      reflexivity.
    + reflexivity.
Qed.

(** What trying a command tells about it. *)
Lemma try_match_true line i cmd s s1 :
  try_match search line i cmd s = (Ok true, s1) ->
  search (regexp cmd) line <> None
  /\ (allowed cmd = None ->
      match_ (caller s1) = search (regexp cmd) line).
Proof.
  rewrite try_match_spec.
  destruct (search (regexp cmd) line) as [m|]; [|discriminate].
  destruct (allowed cmd) as [guard|].
  - intros _. split; [discriminate | discriminate].
  - intros H. inversion H; subst. split; [discriminate | reflexivity].
Qed.

(** What one call of a handler leaves on record. *)
Lemma run_command_events srv i cmd s rc s1 :
  run_command srv i cmd s = (rc, s1) ->
  exists evs,
    trace s1 = trace s ++ evs
    /\ searched evs = [] /\ funcs_called evs = [i] /\ huh_calls evs = []
    /\ length (on_error_calls evs) <= 1
    /\ length (logged evs) = 2 * length (on_error_calls evs)
    /\ (rc = Ok Continue -> on_error_calls evs = [])
    /\ (forall j c, In (EvFunc j c) evs -> j = i /\ c = caller s).
Proof.
  assert (forall tail,
            searched tail = [] -> funcs_called tail = [] ->
            huh_calls tail = [] -> length (on_error_calls tail) <= 1 ->
            length (logged tail) = 2 * length (on_error_calls tail) ->
            (rc = Ok Continue -> on_error_calls tail = []) ->
            (forall j c, ~ In (EvFunc j c) tail) ->
            trace s1 = trace s ++ EvFunc i (caller s) :: tail ->
            exists evs,
              trace s1 = trace s ++ evs
              /\ searched evs = [] /\ funcs_called evs = [i]
              /\ huh_calls evs = []
              /\ length (on_error_calls evs) <= 1
              /\ length (logged evs) = 2 * length (on_error_calls evs)
              /\ (rc = Ok Continue -> on_error_calls evs = [])
              /\ (forall j c, In (EvFunc j c) evs -> j = i /\ c = caller s))
    as Done.
  { intros tail S0 F0 H0 E0 L0 C0 N0 T.
    exists ([EvFunc i (caller s)] ++ tail). split; [exact T|].
    read_events. rewrite S0, F0, H0.
    split; [reflexivity|]. split; [reflexivity|]. split; [reflexivity|].
    split; [exact E0|]. split; [exact L0|]. split; [exact C0|].
    intros j c [E|E].
    - inversion E. split; reflexivity.
    - contradiction (N0 j c E). }
  destruct (func cmd (caller s, world s)) as [[[]|[|cls|cls]] [c w1]] eqn:F.
  - rewrite (run_command_returns W Regexp Match srv i cmd s _ _ F). intros H.
    inversion H; subst. apply (Done []); try reflexivity; try (cbn; lia).
  - rewrite (run_command_skips W Regexp Match srv i cmd s _ _ F). intros H.
    inversion H; subst. apply (Done []); try reflexivity; try (cbn; lia).
  - destruct (on_error srv (with_exception c (ExceptionOf cls), w1))
      as [ro [c1 w2]] eqn:Eo.
    rewrite (run_command_fails W Regexp Match srv i cmd s _ _ _ _ _ _ F Eo).
    intros H. inversion H; subst.
    apply (Done [EvLogException (CommandThrew i);
                 EvLogException (Thrown (ExceptionOf cls));
                 EvOnError (with_exception c (ExceptionOf cls))]);
      try reflexivity; try (cbn; lia);
      try (destruct ro as [[]|e]; discriminate);
      try (intros j c0 [E|[E|[E|[]]]]; discriminate).
  - rewrite (run_command_exits W Regexp Match srv i cmd s _ _ _ F). intros H.
    inversion H; subst. apply (Done []); try reflexivity; try (cbn; lia).
Qed.

Lemma loop_record_nil line i cmds : loop_record line i cmds [] 0.
Proof.
  unfold loop_record. cbn.
  split; [lia|]. split; [reflexivity|]. split; [reflexivity|].
  split; [lia|]. split; [reflexivity|]. split; [constructor|].
  split; intros; contradiction.
Qed.

(** One turn of the loop in front of the turns that follow it. *)
Lemma loop_record_cons line i cmd rest evs1 evs2 evs3 k :
  searched evs1 = [i] -> uneventful evs1 ->
  searched evs2 = [] -> huh_calls evs2 = [] ->
  length (on_error_calls evs2) <= 1 ->
  length (logged evs2) = 2 * length (on_error_calls evs2) ->
  (funcs_called evs2 = [] \/ funcs_called evs2 = [i]) ->
  (forall j c, In (EvFunc j c) evs2 ->
     j = i /\ search (regexp cmd) line <> None
     /\ (allowed cmd = None -> match_ c = search (regexp cmd) line)) ->
  loop_record line (S i) rest evs3 k ->
  (on_error_calls evs2 = [] \/ (evs3 = [] /\ k = 0)) ->
  loop_record line i (cmd :: rest) (evs1 ++ evs2 ++ evs3) (S k).
Proof.
  intros S1 (F1 & E1 & H1 & L1) S2 H2 E2 L2 F2 I2
    (K3 & S3 & H3 & E3 & L3 & N3 & B3 & I3) Stop.
  unfold loop_record. read_events.
  rewrite S1, F1, E1, H1, L1, S2, H2, S3, H3. cbn [app length].
  assert (forall j, In j (funcs_called evs3) -> S i <= j < S i + k) as B3a
    by exact B3.
  split; [lia|]. split; [reflexivity|]. split; [reflexivity|].
  split; [destruct Stop as [Z|[Z1 Z2]];
          [rewrite Z; cbn [length app]; lia
          |subst evs3; cbn [on_error_calls flat_map length];
           rewrite Nat.add_0_r; exact E2]|].
  split; [destruct Stop as [Z|[Z1 Z2]];
          [rewrite Z in *; cbn [length app] in *; lia
          |subst evs3; cbn [on_error_calls logged flat_map length];
           rewrite !Nat.add_0_r; exact L2]|].
  split; [|split].
  - destruct F2 as [F2|F2]; rewrite F2; cbn [app]; [exact N3|].
    constructor; [|exact N3]. intros In3. apply B3a in In3. lia.
  - intros j Hj. destruct F2 as [F2|F2]; rewrite F2 in Hj; cbn [app] in Hj.
    + apply B3a in Hj. lia.
    + destruct Hj as [Hj|Hj]; [subst j; lia | apply B3a in Hj; lia].
  - intros j c Hin. apply in_app_or in Hin. destruct Hin as [Hin|Hin].
    + apply in_funcs_called in Hin. rewrite F1 in Hin. contradiction.
    + apply in_app_or in Hin. destruct Hin as [Hin|Hin].
      * destruct (I2 j c Hin) as (-> & Sn & Ma).
        exists cmd. rewrite Nat.sub_diag. split; [reflexivity|].
        split; assumption.
      * pose proof (B3a j (in_funcs_called _ _ _ Hin)) as Bj.
        destruct (I3 j c Hin) as (cmd3 & N & Sn & Ma).
        exists cmd3. replace (j - i) with (S (j - S i)) by lia.
        split; [exact N|]. split; assumption.
Qed.

(** Every run of the loop leaves such a record; a run that ends with
    the list exhausted tried every command and called no [on_error]. *)
Lemma for_commands_record srv line cmds : forall i s,
  exists evs k,
    trace (snd (for_commands search srv line i cmds s)) = trace s ++ evs
    /\ loop_record line i cmds evs k
    /\ (fst (for_commands search srv line i cmds s) = Ok false ->
        on_error_calls evs = [] /\ k = length cmds).
Proof.
  induction cmds as [|cmd rest IH]; intros i s.
  - exists [], 0. cbn. rewrite app_nil_r. split; [reflexivity|].
    split; [apply loop_record_nil | split; reflexivity].
  - cbn [for_commands]. unfold bind.
    destruct (try_match search line i cmd s) as [rt s1] eqn:T.
    destruct (try_match_trace W Regexp Match search _ _ _ _ _ _ T)
      as (evs1 & T1 & S1 & U1).
    destruct rt as [[|]|e].
    + destruct (try_match_true _ _ _ _ _ T) as [Sn Ma].
      destruct (run_command srv i cmd s1) as [rc s2] eqn:R.
      destruct (run_command_events _ _ _ _ _ _ R)
        as (evs2 & T2 & S2 & F2 & H2 & E2 & L2 & C2 & I2).
      assert (forall j c, In (EvFunc j c) evs2 ->
                j = i /\ search (regexp cmd) line <> None
                /\ (allowed cmd = None ->
                    match_ c = search (regexp cmd) line)) as I2a.
      { intros j c Hin. destruct (I2 j c Hin) as [-> ->].
        split; [reflexivity|]. split; assumption. }
      destruct rc as [[|]|e].
      * exists (evs1 ++ evs2 ++ []), 1. cbn [snd fst ret].
        split; [rewrite T2, T1, app_nil_r, app_assoc; reflexivity|].
        split; [|discriminate].
        apply loop_record_cons; auto using loop_record_nil.
      * destruct (IH (S i) s2) as (evs3 & k & T3 & R3 & X3).
        exists (evs1 ++ evs2 ++ evs3), (S k).
        split; [rewrite T3, T2, T1, !app_assoc; reflexivity|].
        split.
        -- apply loop_record_cons; auto; left; apply C2; reflexivity.
        -- intros Hf. destruct (X3 Hf) as [X3a X3b].
           read_events. destruct U1 as (_ & E1 & _).
           rewrite E1, (C2 eq_refl), X3a, X3b. split; reflexivity.
      * exists (evs1 ++ evs2 ++ []), 1. cbn [snd fst].
        split; [rewrite T2, T1, app_nil_r, app_assoc; reflexivity|].
        split; [|discriminate].
        apply loop_record_cons; auto using loop_record_nil.
    + destruct (IH (S i) s1) as (evs3 & k & T3 & R3 & X3).
      exists (evs1 ++ [] ++ evs3), (S k).
      split; [rewrite T3, T1, <- app_assoc; reflexivity|].
      split.
      * apply loop_record_cons; auto; try reflexivity; try (cbn; lia);
          intros j c [].
      * intros Hf. destruct (X3 Hf) as [X3a X3b].
        read_events. destruct U1 as (_ & E1 & _).
        rewrite E1, X3a, X3b. split; reflexivity.
    + exists (evs1 ++ [] ++ []), 1. cbn [snd fst].
      split; [rewrite T1, !app_nil_r; reflexivity|].
      split; [|discriminate].
      apply loop_record_cons; auto using loop_record_nil;
        try reflexivity; try (cbn; lia); intros j c [].
Qed.

(** The record of a whole [handle_line] call: the call of [on_command],
    the record of the loop, and at the end the call of [huh] if the
    loop tried every command and left without [break]. *)
Lemma handle_line_record srv conn line w :
  exists evs k (hs : list (Event Match)),
    trace (snd (Server_handle_line search srv conn line w))
    = [EvOnCommand (Caller_new conn (Some line))] ++ evs ++ hs
    /\ loop_record line 0 (commands srv) evs k
    /\ (hs = []
        \/ exists c, hs = [EvHuh c] /\ match_ c = None
                     /\ on_error_calls evs = []
                     /\ k = length (commands srv)).
Proof.
  unfold Server_handle_line. unfold bind at 1.
  destruct (gate srv (start conn line w)) as [rg s0] eqn:G.
  pose proof (gate_trace W Regexp Match _ _ _ _ _ _ G) as T0.
  assert (exists evs k (hs : list (Event Match)),
            trace s0 = [EvOnCommand (Caller_new conn (Some line))] ++ evs ++ hs
            /\ loop_record line 0 (commands srv) evs k
            /\ (hs = []
                \/ exists c, hs = [EvHuh c] /\ match_ c = None
                             /\ on_error_calls evs = []
                             /\ k = length (commands srv))) as Idle.
  { exists [], 0, []. rewrite T0. split; [reflexivity|].
    split; [apply loop_record_nil | left; reflexivity]. }
  destruct rg as [[|]|e]; [|exact Idle|exact Idle]. clear Idle.
  unfold loop, bind.
  destruct (for_commands_record srv line (commands srv) 0 s0)
    as (evs & k & T & R & X).
  destruct (for_commands search srv line 0 (commands srv) s0)
    as [[[|]|e] s1]; cbn [fst snd] in T, X.
  - exists evs, k, []. cbn [snd ret]. rewrite T, T0, app_nil_r.
    split; [reflexivity|]. split; [exact R | left; reflexivity].
  - destruct (huh srv (with_match (caller s1) None, world s1))
      as [rh [c1 w1]] eqn:H.
    rewrite (not_understood_runs W Regexp Match _ _ _ _ _ H).
    cbn [snd trace].
    exists evs, k, [EvHuh (with_match (caller s1) None)].
    rewrite T, T0, <- app_assoc. split; [reflexivity|].
    split; [exact R|]. right. exists (with_match (caller s1) None).
    destruct (X eq_refl) as [X1 X2]. repeat split; assumption.
  - exists evs, k, []. cbn [snd]. rewrite T, T0, app_nil_r.
    split; [reflexivity|]. split; [exact R | left; reflexivity].
Qed.

(** X1.  Every pass tries the commands in registration order, from the
    first one on and without a gap, each at most once; the handlers
    called are among the commands tried, and none is called twice. *)
Theorem commands_are_tried_in_order srv conn line w :
  let tr := trace (snd (Server_handle_line search srv conn line w)) in
  exists k,
    k <= length (commands srv)
    /\ searched tr = seq 0 k
    /\ NoDup (funcs_called tr)
    /\ (forall j, In j (funcs_called tr) -> j < k).
Proof.
  intros tr. subst tr.
  destruct (handle_line_record srv conn line w)
    as (evs & k & hs & T & (K & S & H & E & L & N & B & I) & Hs).
  exists k. rewrite T. read_events.
  assert (searched hs = [] /\ funcs_called hs = []) as [Sh Fh].
  { destruct Hs as [->|(c & -> & _)]; split; reflexivity. }
  rewrite Sh, Fh, S. cbn [searched funcs_called flat_map app].
  rewrite !app_nil_r.
  split; [exact K|]. split; [reflexivity|]. split; [exact N|].
  intros j Hj. apply B in Hj. lia.
Qed.

(** X2.  A pass ends in at most one of the two hooks: [on_error] is
    called at most once, [huh] at most once, and never both; and what
    is logged is the two records that go with a call of [on_error]. *)
Theorem on_error_or_huh_at_most_once srv conn line w :
  let tr := trace (snd (Server_handle_line search srv conn line w)) in
  length (on_error_calls tr) + length (huh_calls tr) <= 1
  /\ length (logged tr) = 2 * length (on_error_calls tr).
Proof.
  intros tr. subst tr.
  destruct (handle_line_record srv conn line w)
    as (evs & k & hs & T & (K & S & H & E & L & N & B & I) & Hs).
  rewrite T. read_events. rewrite H.
  cbn [on_error_calls huh_calls logged flat_map app length].
  destruct Hs as [->|(c & -> & _ & E0 & _)].
  - cbn [on_error_calls huh_calls logged flat_map app length]. lia.
  - rewrite E0 in *.
    cbn [on_error_calls huh_calls logged flat_map app length] in *. lia.
Qed.

(** X3.  A handler is called only when its own pattern is found in the
    line, and the handler of a command without guard is handed a
    [Caller] whose [match] is the result of that search: never [None],
    and never what another command's search, or a handler that asked to
    be skipped, left there. *)
Theorem handler_sees_its_own_match srv conn line w j c :
  In (EvFunc j c) (trace (snd (Server_handle_line search srv conn line w))) ->
  exists cmd,
    nth_error (commands srv) j = Some cmd
    /\ search (regexp cmd) line <> None
    /\ (allowed cmd = None -> match_ c = search (regexp cmd) line).
Proof.
  destruct (handle_line_record srv conn line w)
    as (evs & k & hs & T & (K & S & H & E & L & N & B & I) & Hs).
  rewrite T. intros Hin.
  apply in_app_or in Hin. destruct Hin as [[Hin|[]]|Hin]; [discriminate|].
  apply in_app_or in Hin. destruct Hin as [Hin|Hin].
  - destruct (I j c Hin) as (cmd & Hn & Sn & Ma).
    rewrite Nat.sub_0_r in Hn. exists cmd. repeat split; assumption.
  - destruct Hs as [->|(c0 & -> & _)]; [contradiction|].
    destruct Hin as [Hin|[]]. discriminate.
Qed.

Lemma call_returns {A : Type} (f : Code W Match A) s :
  returns f -> exists a s1, call f s = (Ok a, s1).
Proof.
  intros R. unfold call.
  destruct (R (caller s, world s)) as (a & [c1 w1] & E). rewrite E.
  eexists. eexists. reflexivity.
Qed.

Lemma try_match_returns line i cmd s :
  (forall guard, allowed cmd = Some guard -> returns guard) ->
  exists b s1, try_match search line i cmd s = (Ok b, s1).
Proof.
  intros G. rewrite try_match_spec.
  destruct (search (regexp cmd) line) as [m|];
    [|eexists; eexists; reflexivity].
  destruct (allowed cmd) as [guard|] eqn:A;
    [|eexists; eexists; reflexivity].
  unfold bind, emit. apply call_returns. apply G. reflexivity.
Qed.

Lemma run_command_contains srv i cmd s :
  returns (on_error srv) ->
  (forall cw cls cw1, func cmd cw <> (Raise (BaseExceptionOf cls), cw1)) ->
  exists ctl s1, run_command srv i cmd s = (Ok ctl, s1).
Proof.
  intros Ro Nb.
  destruct (func cmd (caller s, world s)) as [[[]|[|cls|cls]] [c w1]] eqn:F.
  - rewrite (run_command_returns W Regexp Match srv i cmd s _ _ F).
    eexists. eexists. reflexivity.
  - rewrite (run_command_skips W Regexp Match srv i cmd s _ _ F).
    eexists. eexists. reflexivity.
  - destruct (Ro (with_exception c (ExceptionOf cls), w1))
      as ([] & [c1 w2] & Eo).
    rewrite (run_command_fails W Regexp Match srv i cmd s _ _ _ _ _ _ F Eo).
    eexists. eexists. reflexivity.
  - contradiction (Nb _ _ _ F).
Qed.

Lemma for_commands_contains srv line cmds :
  returns (on_error srv) -> Forall tame cmds ->
  forall i s, exists b s1, for_commands search srv line i cmds s = (Ok b, s1).
Proof.
  intros Ro Ft. induction Ft as [|cmd rest [G Nb] _ IH]; intros i s.
  - eexists. eexists. reflexivity.
  - cbn [for_commands]. unfold bind.
    destruct (try_match_returns line i cmd s G) as (b & s1 & T). rewrite T.
    destruct b; [|apply IH].
    destruct (run_command_contains srv i cmd s1 Ro Nb) as (ctl & s2 & R).
    rewrite R. destruct ctl; [|apply IH].
    eexists. eexists. reflexivity.
Qed.

(** X4.  Faults stay inside: when the hooks [on_command], [on_error]
    and [huh] return, the guards return, and no handler raises outside
    [Exception], [handle_line] returns, whatever [Exception]s the
    handlers raise. *)
Theorem handle_line_contains_faults srv conn line w :
  returns (on_command srv) -> returns (on_error srv) -> returns (huh srv) ->
  Forall tame (commands srv) ->
  fst (Server_handle_line search srv conn line w) = Ok tt.
Proof.
  intros Rc Ro Rh Ft. unfold Server_handle_line, gate, bind, get_caller, emit.
  match goal with
  | |- context [call (on_command srv) ?st] =>
      destruct (call_returns (on_command srv) st Rc) as (go & s0 & G)
  end.
  rewrite G. destruct go; [|reflexivity].
  unfold loop, bind.
  destruct (for_commands_contains srv line (commands srv) Ro Ft 0 s0)
    as (b & s1 & F).
  rewrite F. destruct b; [reflexivity|].
  unfold not_understood, bind, set_match, get_caller, emit.
  match goal with
  | |- context [call (huh srv) ?st] =>
      destruct (call_returns (huh srv) st Rh) as ([] & s2 & H)
  end.
  rewrite H. reflexivity.
Qed.



(** Commands that are all declined exhaust the loop. *)
Lemma for_commands_decline srv line cmds : forall i s s1,
  decline search srv line i cmds s = Some s1 ->
  for_commands search srv line i cmds s = (Ok false, s1).
Proof.
  induction cmds as [|cmd rest IH]; intros i s s1 D; cbn [decline] in D.
  - inversion D; subst. reflexivity.
  - cbn [for_commands]. unfold bind.
    destruct (try_match search line i cmd s) as [[[|]|e] s2];
      try discriminate.
    + destruct (run_command srv i cmd s2) as [[[|]|e] s3]; try discriminate.
      apply IH. exact D.
    + apply IH. exact D.
Qed.

(** X7.  Skipping is not understanding: when every command is either
    not eligible or has a handler that raises [DontStopException], all
    the commands are tried and [huh] is called once, with [match]
    cleared; [on_error] is not called and nothing is logged. *)
Theorem declined_by_all_falls_back srv conn line w s0 s1 :
  gate srv (start conn line w) = (Ok true, s0) ->
  decline search srv line 0 (commands srv) s0 = Some s1 ->
  let out := Server_handle_line search srv conn line w in
  let tr := trace (snd out) in
  let lost := with_match (caller s1) None in
  huh_calls tr = [lost]
  /\ on_error_calls tr = [] /\ logged tr = []
  /\ searched tr = seq 0 (length (commands srv))
  /\ fst out = fst (huh srv (lost, world s1))
  /\ world (snd out) = snd (snd (huh srv (lost, world s1))).
Proof.
  intros Hgate Hd out tr lost.
  pose proof (for_commands_decline _ _ _ _ _ _ Hd) as F.
  pose proof (gate_trace W Regexp Match _ _ _ _ _ _ Hgate) as T0.
  destruct (for_commands_record srv line (commands srv) 0 s0)
    as (evs & k & T & (K & S & H & E & L & N & B & I) & X).
  rewrite F in T, X. cbn [fst snd] in T, X.
  destruct (X eq_refl) as [E0 K0]. subst k.
  rewrite E0 in L. cbn [length] in L. apply length_zero_iff_nil in L.
  destruct (huh srv (lost, world s1)) as [rh [c1 w2]] eqn:Hh.
  assert (out = (rh, {| caller := c1; world := w2;
                        trace := trace s1 ++ [EvHuh lost] |})) as Out.
  { subst out. unfold Server_handle_line. unfold bind at 1. rewrite Hgate.
    unfold loop. unfold bind at 1. rewrite F.
    apply (not_understood_runs W Regexp Match _ _ _ _ _ Hh). }
  subst tr. rewrite Out. cbn [fst snd world trace]. rewrite T, T0.
  read_events. rewrite H, E0, L, S.
  cbn [huh_calls on_error_calls logged searched flat_map app].
  rewrite !app_nil_r. repeat split.
Qed.

(** The loop reads nothing of the server but its [on_error]. *)
Lemma for_commands_same_on_error srv srv1 line cmds :
  on_error srv1 = on_error srv ->
  forall i s,
    for_commands search srv1 line i cmds s
    = for_commands search srv line i cmds s.
Proof.
  intros E. induction cmds as [|cmd rest IH]; intros i s.
  - reflexivity.
  - cbn [for_commands]. unfold bind.
    destruct (try_match search line i cmd s) as [[[|]|e] s1];
      [|apply IH|reflexivity].
    assert (run_command srv1 i cmd s1 = run_command srv i cmd s1) as R
      by (unfold run_command; rewrite E; reflexivity).
    rewrite R. destruct (run_command srv i cmd s1) as [[[|]|e] s2];
      [reflexivity | apply IH | reflexivity].
Qed.

(** [handle_line] by the way the loop ends. *)
Lemma handle_line_by_loop srv conn line w :
  Server_handle_line search srv conn line w
  = match gate srv (start conn line w) with
    | (Ok true, s0) =>
        match for_commands search srv line 0 (commands srv) s0 with
        | (Ok true, s1) => (Ok tt, s1)
        | (Ok false, s1) => not_understood srv s1
        | (Raise e, s1) => (Raise e, s1)
        end
    | (Ok false, s0) => (Ok tt, s0)
    | (Raise e, s0) => (Raise e, s0)
    end.
Proof.
  unfold Server_handle_line, loop, bind.
  destruct (gate srv (start conn line w)) as [[[|]|e] s0]; try reflexivity.
  destruct (for_commands search srv line 0 (commands srv) s0)
    as [[[|]|e] s1]; reflexivity.
Qed.

(** [handle_line] of a server with one more command registered. *)
Lemma handle_line_registered srv func regexp allowed conn line w :
  Server_handle_line search (fst (Server_command srv func regexp allowed))
    conn line w
  = match gate srv (start conn line w) with
    | (Ok true, s0) =>
        match for_commands search srv line 0 (commands srv) s0 with
        | (Ok true, s1) => (Ok tt, s1)
        | (Ok false, s1) =>
            loop search srv line (length (commands srv))
              [snd (Server_command srv func regexp allowed)] s1
        | (Raise e, s1) => (Raise e, s1)
        end
    | (Ok false, s0) => (Ok tt, s0)
    | (Raise e, s0) => (Raise e, s0)
    end.
Proof.
  rewrite handle_line_by_loop.
  change (gate (fst (Server_command srv func regexp allowed)))
    with (gate srv).
  destruct (gate srv (start conn line w)) as [[[|]|e] s0]; try reflexivity.
  rewrite (for_commands_same_on_error srv
             (fst (Server_command srv func regexp allowed))) by reflexivity.
  change (commands (fst (Server_command srv func regexp allowed)))
    with (commands srv ++ [snd (Server_command srv func regexp allowed)]).
  rewrite for_commands_app.
  destruct (for_commands search srv line 0 (commands srv) s0)
    as [[[|]|e] s1]; try reflexivity.
  rewrite Nat.add_0_r. unfold loop, bind.
  destruct (for_commands search srv line (length (commands srv))
              [snd (Server_command srv func regexp allowed)] s1)
    as [[[|]|e] s2]; reflexivity.
Qed.

(** X8.  Registration order is priority: a command registered with
    [Server.command] goes to the end of the list, so that every line
    that was handled without [huh] before is handled in the same way
    after, and a line that ended in [huh] now has the new command
    tried. *)
Theorem registering_keeps_understood_lines
    srv func regexp allowed conn line w :
  let srv1 := fst (Server_command srv func regexp allowed) in
  let cmd := snd (Server_command srv func regexp allowed) in
  let out := Server_handle_line search srv conn line w in
  let out1 := Server_handle_line search srv1 conn line w in
  nth_error (commands srv1) (length (commands srv)) = Some cmd
  /\ (huh_calls (trace (snd out)) = [] -> out1 = out)
  /\ (huh_calls (trace (snd out)) <> [] ->
      In (length (commands srv)) (searched (trace (snd out1)))).
Proof.
  intros srv1 cmd out out1.
  split.
  { subst srv1 cmd. cbn [Server_command fst snd commands].
    rewrite nth_error_app2 by lia. rewrite Nat.sub_diag. reflexivity. }
  subst out out1 srv1 cmd.
  rewrite handle_line_registered, handle_line_by_loop.
  destruct (gate srv (start conn line w)) as [[[|]|e] s0] eqn:G;
    pose proof (gate_trace W Regexp Match _ _ _ _ _ _ G) as T0.
  - destruct (for_commands_record srv line (commands srv) 0 s0)
      as (evs & k & T & (K & S & H & E & L & N & B & I) & X).
    destruct (for_commands search srv line 0 (commands srv) s0)
      as [[[|]|e] s1]; cbn [fst snd] in T.
    + cbn [snd trace]. rewrite T, T0. split; [reflexivity|].
      read_events. rewrite H. intros C. contradiction C. reflexivity.
    + split.
      * destruct (huh srv (with_match (caller s1) None, world s1))
          as [rh [c1 w1]] eqn:Hh.
        rewrite (not_understood_runs W Regexp Match _ _ _ _ _ Hh).
        cbn [snd trace]. read_events. intros C.
        apply app_eq_nil in C. destruct C as [_ C]. discriminate C.
      * intros _.
        destruct (loop_trace W Regexp Match search srv line
                    [snd (Server_command srv func regexp allowed)]
                    (length (commands srv)) s1)
          as (evs1 & T1 & S1).
        rewrite T1. destruct S1 as (ns & S1); [discriminate|].
        rewrite searched_app, S1.
        apply in_or_app. right. left. reflexivity.
    + cbn [snd trace]. rewrite T, T0. split; [reflexivity|].
      read_events. rewrite H. intros C. contradiction C. reflexivity.
  - cbn [snd trace]. rewrite T0. split; [reflexivity|].
    intros C. contradiction C. reflexivity.
  - cbn [snd trace]. rewrite T0. split; [reflexivity|].
    intros C. contradiction C. reflexivity.
Qed.

End LoopProofs.

(* ================================================================== *)
(** ** More on the codecs: what [notify] sends and [lineReceived] reads *)

Lemma to_N_byte_of n : Byte.to_N (byte_of n) = (n mod 256)%N.
Proof.
  unfold byte_of. destruct (Byte.of_N (n mod 256)) as [b|] eqn:E.
  - apply Byte.to_of_N. exact E.
  - apply Byte.of_N_None_iff in E.
    pose proof (N.mod_upper_bound n 256). lia.
Qed.

(** Settles the comparisons of a goal that arithmetic decides. *)
Ltac decide_tests :=
  repeat match goal with
    | |- context [(?a <? ?b)%N] =>
        first [ replace (a <? b)%N with true
                  by (symmetry; apply N.ltb_lt; lia)
              | replace (a <? b)%N with false
                  by (symmetry; apply N.ltb_ge; lia) ]
    | |- context [(?a <=? ?b)%N] =>
        first [ replace (a <=? b)%N with true
                  by (symmetry; apply N.leb_le; lia)
              | replace (a <=? b)%N with false
                  by (symmetry; apply N.leb_gt; lia) ]
    | |- context [(?a =? ?b)%N] =>
        first [ replace (a =? b)%N with true
                  by (symmetry; apply N.eqb_eq; lia)
              | replace (a =? b)%N with false
                  by (symmetry; apply N.eqb_neq; lia) ]
    end.

(** Settles what is left by cases, and closes the goal. *)
Ltac decode_cases :=
  decide_tests;
  repeat match goal with
    | |- context [(?a <? ?b)%N] => destruct (a <? b)%N
    end;
  cbn [andb orb negb]; f_equal; lia.

Lemma some_inj (x y : bytes) : Some x = Some y -> y = x.
Proof. intros H. congruence. Qed.

(** The decoder reads the UTF-8 form of a scalar value back as that
    value, under every error handler and in front of any bytes. *)
Lemma utf8_decode_encoded_char errors c bs rest :
  scalar c = true -> utf8_encode_char c = Some bs ->
  utf8_decode errors (bs ++ rest) = emit_char c (utf8_decode errors rest).
Proof.
  unfold scalar, surrogate, utf8_encode_char. intros V E.
  apply andb_true_iff in V. destruct V as [V1 V2].
  apply N.leb_le in V1. apply negb_true_iff in V2.
  pose proof (N.div_mod c 64 ltac:(lia)) as D1.
  pose proof (N.mod_upper_bound c 64 ltac:(lia)) as M1.
  pose proof (N.div_mod (c / 64) 64 ltac:(lia)) as D2.
  pose proof (N.mod_upper_bound (c / 64) 64 ltac:(lia)) as M2.
  pose proof (N.div_mod (c / 64 / 64) 64 ltac:(lia)) as D3.
  pose proof (N.mod_upper_bound (c / 64 / 64) 64 ltac:(lia)) as M3.
  replace (c / 4096)%N with (c / 64 / 64)%N in *
    by (rewrite N.Div0.div_div; reflexivity).
  replace (c / 262144)%N with (c / 64 / 64 / 64)%N in *
    by (rewrite !N.Div0.div_div; reflexivity).
  remember (c / 64)%N as q1 in *. remember (c mod 64)%N as r1 in *.
  remember (q1 / 64)%N as q2 in *. remember (q1 mod 64)%N as r2 in *.
  remember (q2 / 64)%N as q3 in *. remember (q2 mod 64)%N as r3 in *.
  destruct (c <? 128)%N eqn:C1.
  { apply N.ltb_lt in C1. apply some_inj in E. subst bs.
    cbn [app utf8_decode]. rewrite !to_N_byte_of.
    rewrite (N.mod_small c 256) by lia. decide_tests. reflexivity. }
  apply N.ltb_ge in C1.
  destruct (c <? 2048)%N eqn:C2.
  { apply N.ltb_lt in C2. apply some_inj in E. subst bs.
    cbn [app utf8_decode]. rewrite !to_N_byte_of.
    rewrite (N.mod_small (192 + q1) 256) by lia.
    rewrite (N.mod_small (128 + r1) 256) by lia.
    unfold is_cont. decide_tests. cbn [andb]. f_equal. lia. }
  apply N.ltb_ge in C2. rewrite V2 in E.
  apply andb_false_iff in V2.
  destruct (c <? 65536)%N eqn:C3.
  { apply N.ltb_lt in C3. apply some_inj in E. subst bs.
    cbn [app utf8_decode]. rewrite !to_N_byte_of.
    rewrite (N.mod_small (224 + q2) 256) by lia.
    rewrite (N.mod_small (128 + r2) 256) by lia.
    rewrite (N.mod_small (128 + r1) 256) by lia.
    unfold is_cont.
    destruct V2 as [V2|V2]; apply N.leb_gt in V2.
    all: destruct (N.eq_dec q2 0) as [Z|Z];
      [|destruct (N.eq_dec q2 13) as [Z1|Z1]].
    all: decode_cases. }
  apply N.ltb_ge in C3. apply some_inj in E. subst bs.
  cbn [app utf8_decode]. rewrite !to_N_byte_of.
  rewrite (N.mod_small (240 + q3) 256) by lia.
  rewrite (N.mod_small (128 + r3) 256) by lia.
  rewrite (N.mod_small (128 + r2) 256) by lia.
  rewrite (N.mod_small (128 + r1) 256) by lia.
  unfold is_cont.
  destruct (N.eq_dec q3 0) as [Z|Z]; [|destruct (N.eq_dec q3 4) as [Z1|Z1]].
  all: decode_cases.
Qed.

(** A code point has a UTF-8 form unless it is a surrogate. *)
Lemma utf8_encode_char_None c :
  utf8_encode_char c = None <-> surrogate c = true.
Proof.
  unfold utf8_encode_char, surrogate.
  destruct (c <? 128)%N eqn:C1; [|destruct (c <? 2048)%N eqn:C2].
  - split; [discriminate|]. intros H. apply andb_true_iff in H.
    destruct H as [H _]. apply N.leb_le in H. apply N.ltb_lt in C1. lia.
  - split; [discriminate|]. intros H. apply andb_true_iff in H.
    destruct H as [H _]. apply N.leb_le in H. apply N.ltb_lt in C2. lia.
  - destruct ((55296 <=? c)%N && (c <=? 57343)%N).
    + split; reflexivity.
    + destruct (c <? 65536)%N; split; discriminate.
Qed.

(** [encode] raises [UnicodeEncodeError] when the text holds a
    surrogate, and nothing else. *)
Lemma encode_surrogate text :
  existsb surrogate text = true -> encode text = Raise UnicodeEncodeError.
Proof.
  induction text as [|c rest IH]; [discriminate|].
  cbn [existsb encode]. intros H.
  destruct (utf8_encode_char c) as [bs|] eqn:E; [|reflexivity].
  destruct (surrogate c) eqn:Sg.
  - apply utf8_encode_char_None in Sg. congruence.
  - cbn [orb] in H. rewrite (IH H). reflexivity.
Qed.

(** What is encoded decodes to the text it was, under every handler. *)
Lemma decode_encode text : forall payload errors,
  forallb scalar text = true ->
  encode text = Ok payload ->
  decode (UTF8, errors) payload = Ok text.
Proof.
  unfold decode. cbn [fst snd].
  induction text as [|c rest IH]; intros payload errors V E.
  - cbn [encode] in E. inversion E. reflexivity.
  - cbn [forallb] in V. apply andb_true_iff in V. destruct V as [Vc Vr].
    cbn [encode] in E.
    destruct (utf8_encode_char c) as [bs|] eqn:Ec; [|discriminate].
    destruct (encode rest) as [out|e] eqn:Er; [|discriminate].
    inversion E; subst payload.
    rewrite (utf8_decode_encoded_char errors c bs out Vc Ec).
    rewrite (IH out errors Vr eq_refl). reflexivity.
Qed.

(** A text of scalar values can be encoded. *)
Lemma encode_scalars text :
  forallb scalar text = true -> exists payload, encode text = Ok payload.
Proof.
  induction text as [|c rest IH]; intros V.
  - eexists. reflexivity.
  - cbn [forallb] in V. apply andb_true_iff in V. destruct V as [Vc Vr].
    destruct (IH Vr) as [out Er]. cbn [encode]. rewrite Er.
    destruct (utf8_encode_char c) as [bs|] eqn:Ec.
    + eexists. reflexivity.
    + apply utf8_encode_char_None in Ec. unfold scalar in Vc.
      rewrite Ec in Vc. apply andb_true_iff in Vc.
      destruct Vc as [_ Vc]. discriminate Vc.
Qed.

(** Bytes below 128 are decoded one to one by every codec, under every
    handler. *)
Lemma decode_ascii bs args :
  forallb (fun b => (Byte.to_N b <? 128)%N) bs = true ->
  decode args bs = Ok (map Byte.to_N bs).
Proof.
  destruct args as [enc errors]. unfold decode. cbn [fst snd].
  destruct enc; [| |reflexivity].
  - induction bs as [|b rest IH]; intros A; [reflexivity|].
    cbn [forallb] in A. apply andb_true_iff in A. destruct A as [Ab Ar].
    cbn [utf8_decode map]. rewrite Ab, (IH Ar). reflexivity.
  - induction bs as [|b rest IH]; intros A; [reflexivity|].
    cbn [forallb] in A. apply andb_true_iff in A. destruct A as [Ab Ar].
    cbn [ascii_decode map]. rewrite Ab, (IH Ar). reflexivity.
Qed.

Section NotifyProofs.

Variable W : Type.
Variable sendLine : ConnId -> bytes -> M W unit.
Variable FmtArg : Type.
Variable percent : str -> FmtOperand FmtArg -> Res str.
Variable parsers : ParserId -> Parser W.

Implicit Types s : PState W.

Lemma notify_sends con text payload w :
  encode text = Ok payload ->
  Server_notify sendLine percent (Some con) text [] [] w
  = sendLine con payload w.
Proof.
  intros E. unfold Server_notify, Server_format_text, bind, of_res.
  rewrite E. reflexivity.
Qed.

Lemma notify_each_sends payload text cons : forall w,
  encode text = Ok payload ->
  notify_each sendLine percent cons text w = send_each sendLine cons payload w.
Proof.
  induction cons as [|con rest IH]; intros w E; [reflexivity|].
  cbn [notify_each send_each]. unfold bind.
  rewrite (notify_sends con text payload w E).
  destruct (sendLine con payload w) as [[[]|e] w1]; [apply IH; exact E|].
  reflexivity.
Qed.

Lemma send_each_stops payload pre con post : forall w w1 e w2,
  send_each sendLine pre payload w = (Ok tt, w1) ->
  sendLine con payload w1 = (Raise e, w2) ->
  send_each sendLine (pre ++ con :: post) payload w = (Raise e, w2).
Proof.
  induction pre as [|c0 rest IH]; intros w w1 e w2 P R.
  - cbn in P. inversion P; subst. cbn [app send_each]. unfold bind.
    rewrite R. reflexivity.
  - cbn [app send_each] in *. unfold bind in *.
    destruct (sendLine c0 payload w) as [[[]|e0] w0]; [|discriminate].
    apply (IH _ _ _ _ P R).
Qed.

(** X9.  A broadcast formats the text once and sends the same bytes to
    every connection of the list, in the order of the list; the first
    connection whose [sendLine] raises ends it, and the connections
    after that one are sent nothing. *)
Theorem broadcast_sends_the_same_to_all
    cons text args kwargs formatted payload w :
  Server_format_text percent text args kwargs = Ok formatted ->
  encode formatted = Ok payload ->
  let out := Server_broadcast sendLine percent cons text args kwargs w in
  out = send_each sendLine cons payload w
  /\ (forall pre con post w1 e w2,
        cons = pre ++ con :: post ->
        send_each sendLine pre payload w = (Ok tt, w1) ->
        sendLine con payload w1 = (Raise e, w2) ->
        out = (Raise e, w2)).
Proof.
  intros F E out.
  assert (out = send_each sendLine cons payload w) as Out.
  { subst out. unfold Server_broadcast, bind, of_res. rewrite F.
    apply notify_each_sends. exact E. }
  split; [exact Out|].
  intros pre con post w1 e w2 -> P R. rewrite Out.
  apply (send_each_stops _ _ _ _ _ _ _ _ P R).
Qed.

(** X10.  A text that holds a surrogate cannot be sent: [notify] raises
    [UnicodeEncodeError] and sends nothing, whatever the connection's
    [encode_args] (which [notify] does not read); a broadcast of it
    raises at the first connection, and returns when there is none. *)
Theorem unencodable_text_is_not_sent text w :
  existsb surrogate text = true ->
  (forall con,
     Server_notify sendLine percent (Some con) text [] [] w
     = (Raise UnicodeEncodeError, w))
  /\ (forall s,
        Protocol_notify sendLine percent text [] [] s
        = (Raise UnicodeEncodeError, s))
  /\ (forall con rest,
        Server_broadcast sendLine percent (con :: rest) text [] [] w
        = (Raise UnicodeEncodeError, w))
  /\ Server_broadcast sendLine percent [] text [] [] w = (Ok tt, w).
Proof.
  intros Sg. pose proof (encode_surrogate text Sg) as E.
  assert (forall con w0,
            Server_notify sendLine percent (Some con) text [] [] w0
            = (Raise UnicodeEncodeError, w0)) as N.
  { intros con w0. unfold Server_notify, Server_format_text, bind, of_res.
    rewrite E. reflexivity. }
  split; [intros con; apply N|]. split; [|split].
  - intros s. unfold Protocol_notify. rewrite N. destruct s; reflexivity.
  - intros con rest.
    unfold Server_broadcast, Server_format_text, bind, of_res.
    cbn [notify_each]. unfold bind. rewrite N. reflexivity.
  - reflexivity.
Qed.

(** X11.  What [notify] sends, [lineReceived] reads back: a text of
    scalar values is sent as bytes that a connection whose decode
    policy is UTF-8, under whatever error handler, decodes to the same
    text and hands to its parser. *)
Theorem notified_text_is_received_unchanged text :
  forallb scalar text = true ->
  exists payload,
    (forall con w,
       Server_notify sendLine percent (Some con) text [] [] w
       = sendLine con payload w)
    /\ (forall s p,
          fst (decode_args (self s)) = UTF8 ->
          Protocol_parser (self s) = Some p ->
          Protocol_lineReceived parsers payload s
          = (pemit (EvHandleLine p text) ;;;
             pcall (handle_line (parsers p) text)) s).
Proof.
  intros V. destruct (encode_scalars text V) as [payload E].
  exists payload. split.
  - intros con w. apply notify_sends. exact E.
  - intros s p U P.
    assert (decode (decode_args (self s)) payload = Ok text) as D.
    { destruct (decode_args (self s)) as [enc errors]. cbn [fst] in U.
      subst enc. apply decode_encode; assumption. }
    unfold Protocol_lineReceived.
    unfold bind at 1. unfold get_self at 1.
    unfold bind at 1. unfold of_res. rewrite D.
    unfold bind at 1. unfold get_self at 1. rewrite P. reflexivity.
Qed.

(** X12.  A line of bytes below 128 is read the same under every decode
    policy, [strict] too: [lineReceived] hands the parser the text
    whose code points are the bytes. *)
Theorem ascii_line_is_read_under_every_policy line s p :
  forallb (fun b => (Byte.to_N b <? 128)%N) line = true ->
  Protocol_parser (self s) = Some p ->
  Protocol_lineReceived parsers line s
  = (pemit (EvHandleLine p (map Byte.to_N line)) ;;;
     pcall (handle_line (parsers p) (map Byte.to_N line))) s.
Proof.
  intros A P. unfold Protocol_lineReceived.
  unfold bind at 1. unfold get_self at 1.
  unfold bind at 1. unfold of_res.
  rewrite (decode_ascii line (decode_args (self s)) A).
  unfold bind at 1. unfold get_self at 1. rewrite P. reflexivity.
Qed.

End NotifyProofs.

(* ================================================================== *)
(** ** More on the [Protocol] methods: failures and registration *)

Lemma remove_first_absent test l :
  existsb test l = false -> remove_first test l = l.
Proof.
  induction l as [|y rest IH]; [reflexivity|].
  cbn [existsb remove_first]. intros H. apply orb_false_iff in H.
  destruct H as [H1 H2]. rewrite H1, (IH H2). reflexivity.
Qed.

Lemma existsb_none (test : ConnId -> bool) l :
  (forall y, In y l -> test y = false) -> existsb test l = false.
Proof.
  induction l as [|y rest IH]; intros N; [reflexivity|].
  cbn [existsb]. rewrite (N y (or_introl eq_refl)).
  apply IH. intros z Hz. apply N. right. exact Hz.
Qed.

Lemma existsb_found (test : ConnId -> bool) pre x post :
  test x = true -> existsb test (pre ++ x :: post) = true.
Proof.
  intros T. rewrite existsb_app. cbn [existsb]. rewrite T.
  apply orb_true_r.
Qed.

(** [remove_first] takes the first entry that passes the test, and
    leaves those before and after it. *)
Lemma remove_first_found test pre x post :
  test x = true -> (forall y, In y pre -> test y = false) ->
  remove_first test (pre ++ x :: post) = pre ++ post.
Proof.
  intros T. induction pre as [|z pre IH]; intros N.
  - cbn. rewrite T. reflexivity.
  - cbn [app remove_first]. rewrite (N z (or_introl eq_refl)).
    rewrite IH; [reflexivity|]. intros y Hy. apply N. right. exact Hy.
Qed.

Lemma remove_first_length test l :
  length l <= S (length (remove_first test l)).
Proof.
  induction l as [|y rest IH]; cbn [remove_first length]; [lia|].
  destruct (test y); cbn [length]; lia.
Qed.

Section ProtocolFailures.

Variable W : Type.
Variables Regexp Match : Type.
Variable parsers : ParserId -> Parser W.
Variable Parser_eq : ParserId -> ParserId -> bool.
Variable peers : ConnId -> Protocol.

Implicit Types srv : Server W Regexp Match.
Implicit Types s : PState W.

(** X13.  A detach hook that raises stops the swap: the setter stores
    nothing, logs no warning and calls no attach hook; it ends with the
    hook's exception and the connection as the hook left it. *)
Theorem raising_detach_hook_stops_the_swap srv value s old e p1 w1 :
  Protocol_parser (self s) = Some old ->
  on_detach (parsers old) value (self s, pworld s) = (Raise e, (p1, w1)) ->
  Protocol_set_parser parsers srv value s
  = (Raise e,
     {| self := p1; connections := connections s; pworld := w1;
        ptrace := ptrace s ++ [EvDetach old value] |}).
Proof.
  unfold Protocol_parser. intros P D.
  unfold Protocol_set_parser, call_on_detach.
  unfold bind, get_self, pemit, pcall. cbn [self connections pworld ptrace].
  rewrite P. cbn [self connections pworld ptrace]. rewrite D. reflexivity.
Qed.

(** X14.  The setter does not roll back: when the attach hook of the
    new parser raises, the new parser is stored already and stays the
    connection's parser, and the old parser has been detached. *)
Theorem raising_attach_hook_keeps_new_parser srv s new e w2 :
  (forall q ctx, quiet (on_detach (parsers q) ctx)) ->
  let old_parser := Protocol_parser (self s) in
  let w1 := match old_parser with
            | Some old => snd (snd (on_detach (parsers old) (Some new)
                                      (self s, pworld s)))
            | None => pworld s
            end in
  on_attach (parsers new) old_parser (with_parser (self s) (Some new), w1)
  = (Raise e, (with_parser (self s) (Some new), w2)) ->
  let out := Protocol_set_parser parsers srv (Some new) s in
  fst out = Raise e
  /\ Protocol_parser (self (snd out)) = Some new
  /\ ptrace (snd out)
     = ptrace s
       ++ match old_parser with
          | Some old => [EvDetach old (Some new)]
          | None => []
          end
       ++ [EvAttach new old_parser].
Proof.
  intros Qd old_parser w1 A out.
  set (s1 := {| self := self s; connections := connections s; pworld := w1;
                ptrace := ptrace s
                          ++ match old_parser with
                             | Some old => [EvDetach old (Some new)]
                             | None => []
                             end |}).
  assert (match old_parser with
          | Some old => call_on_detach parsers old (Some new)
          | None => ret tt
          end s = (Ok tt, s1)) as D1.
  { subst s1 w1. destruct old_parser as [old|].
    - apply call_on_detach_quiet, Qd.
    - rewrite app_nil_r. destruct s; reflexivity. }
  assert (out = (Raise e,
                 {| self := with_parser (self s) (Some new);
                    connections := connections s; pworld := w2;
                    ptrace := ptrace s1 ++ [EvAttach new old_parser] |}))
    as Out.
  { subst out. unfold Protocol_set_parser.
    unfold bind at 1. unfold get_self at 1.
    unfold bind at 1. fold old_parser. unfold Protocol_parser in old_parser.
    fold old_parser. rewrite D1.
    unfold bind at 1. cbn [or_default]. unfold ret at 1.
    unfold bind at 1. unfold put_parser at 1.
    cbn [self connections pworld ptrace s1].
    unfold call_on_attach, bind, pemit, pcall.
    cbn [self connections pworld ptrace].
    unfold with_parser in A. rewrite A. reflexivity. }
  rewrite Out. cbn [fst snd self ptrace s1]. rewrite <- app_assoc.
  repeat split.
Qed.

(** X15.  On a server that has no [default_parser] attribute (the class
    [Server] of [server.py] sets none), setting the parser to [None]
    fails with [AttributeError]: the parser attached stays attached,
    though its detach hook has been called; no warning is logged and
    no attach hook is called. *)
Theorem set_parser_None_without_default srv s :
  default_parser srv = Missing ->
  (forall q ctx, quiet (on_detach (parsers q) ctx)) ->
  let out := Protocol_set_parser parsers srv None s in
  fst out = Raise AttributeError
  /\ self (snd out) = self s
  /\ ptrace (snd out)
     = ptrace s
       ++ match Protocol_parser (self s) with
          | Some old => [EvDetach old None]
          | None => []
          end.
Proof.
  intros Dm Qd out.
  set (old_parser := Protocol_parser (self s)).
  set (s1 := {| self := self s; connections := connections s;
                pworld := match old_parser with
                          | Some old =>
                              snd (snd (on_detach (parsers old) None
                                          (self s, pworld s)))
                          | None => pworld s
                          end;
                ptrace := ptrace s
                          ++ match old_parser with
                             | Some old => [EvDetach old None]
                             | None => []
                             end |}).
  assert (match old_parser with
          | Some old => call_on_detach parsers old None
          | None => ret tt
          end s = (Ok tt, s1)) as D1.
  { subst s1. destruct old_parser as [old|].
    - apply call_on_detach_quiet, Qd.
    - rewrite app_nil_r. destruct s; reflexivity. }
  assert (out = (Raise AttributeError, s1)) as Out.
  { subst out. unfold Protocol_set_parser.
    unfold bind at 1. unfold get_self at 1.
    unfold bind at 1. fold old_parser. unfold Protocol_parser in old_parser.
    fold old_parser. rewrite D1.
    unfold bind at 1. cbn [or_default]. unfold bind at 1.
    rewrite Dm. reflexivity. }
  rewrite Out. repeat split.
Qed.

(** The server's list after [connectionLost], whatever the rest of the
    call does. *)
Lemma connectionLost_connections srv reason s :
  connections (snd (Protocol_connectionLost Parser_eq peers srv reason s))
  = remove_first (is_or_equals Parser_eq peers (self s)) (connections s).
Proof.
  unfold Protocol_connectionLost.
  unfold bind, get_self, put_connections, getattr, pemit, pcall, ret, raise.
  destruct (existsb (is_or_equals Parser_eq peers (self s)) (connections s))
    eqn:X;
    cbn [self connections pworld ptrace];
    [|rewrite (remove_first_absent _ _ X)];
    (destruct (logger (self s)) as [|lg];
     cbn [self connections pworld ptrace snd]; [reflexivity|];
     destruct (on_disconnect srv (self s, pworld s)) as [[[]|e] [p1 w1]];
     reflexivity).
Qed.

(** The logger of a connection has no part in what [in] and
    [list.remove] test. *)
Lemma is_or_equals_logger me lg x :
  is_or_equals Parser_eq peers
    {| ident := ident me; host := host me; port := port me;
       _parser := _parser me; encode_args := encode_args me;
       decode_args := decode_args me; logger := lg |} x
  = is_or_equals Parser_eq peers me x.
Proof. reflexivity. Qed.

(** X16.  [connectionLost] takes one entry out of the server's list: the
    first one that is the connection or is equal to it (the host, the
    port, the parser and the codecs are the same), which need not be
    the connection itself.  The entries before and after it stay, in
    their order; when no entry is the connection or equal to it, the
    list stays as it is.  This is done first, whatever happens after
    (the logger missing, or [on_disconnect] raising). *)
Theorem connectionLost_removes_one_registration srv reason s :
  let out := Protocol_connectionLost Parser_eq peers srv reason s in
  let mine := is_or_equals Parser_eq peers (self s) in
  (forall pre x post,
     connections s = pre ++ x :: post ->
     mine x = true ->
     (forall y, In y pre -> mine y = false) ->
     connections (snd out) = pre ++ post)
  /\ ((forall y, In y (connections s) -> mine y = false) ->
      connections (snd out) = connections s)
  /\ length (connections s) <= S (length (connections (snd out))).
Proof.
  intros out mine. subst out. rewrite connectionLost_connections.
  fold mine. split; [|split].
  - intros pre x post C T N. rewrite C.
    apply remove_first_found; assumption.
  - intros N. apply remove_first_absent, existsb_none, N.
  - apply remove_first_length.
Qed.


(** X18.  [connectionLost] on a connection that [connectionMade] never
    ran for: the connection has no logger, so the call raises
    [AttributeError] once the first entry that is the connection or
    equal to it is out of the server's list; [on_disconnect] is not
    called and nothing is logged. *)
Theorem connectionLost_before_Made_raises srv reason s :
  logger (self s) = Missing ->
  Protocol_connectionLost Parser_eq peers srv reason s
  = (Raise AttributeError,
     {| self := self s;
        connections := remove_first (is_or_equals Parser_eq peers (self s))
                         (connections s);
        pworld := pworld s; ptrace := ptrace s |}).
Proof.
  intros Lm. unfold Protocol_connectionLost.
  unfold bind, get_self, put_connections, getattr, raise.
  destruct (existsb (is_or_equals Parser_eq peers (self s)) (connections s))
    eqn:X;
    cbn [self connections pworld ptrace]; rewrite Lm.
  - reflexivity.
  - rewrite (remove_first_absent _ _ X). destruct s; reflexivity.
Qed.

End ProtocolFailures.

(* ================================================================== *)
(** ** The further theorems at work on the small server *)

(** The commands [bad], [skipping], [plain] and the line [go]: the
    handler of [plain], at position 2, is called with the match of its
    own pattern, after [skipping] was called and skipped. *)
Lemma handler_sees_its_own_match_witness :
  exists cmd,
    nth_error [bad_command; skipping_command; plain_command] 2 = Some cmd
    /\ pattern_search (regexp cmd) (lit "go") <> None
    /\ (allowed cmd = None ->
        Some (lit "go") = pattern_search (regexp cmd) (lit "go")).
Proof.
  apply (handler_sees_its_own_match World Pattern str pattern_search
           (server_of [bad_command; skipping_command; plain_command])
           (Some 1) (lit "go") [] 2
           (mkCaller (Some 1) (Some (lit "go")) (Some (lit "go")) None)).
  cbn. do 5 right. left. reflexivity.
Defined.

Lemma server_of_hooks_return cmds :
  returns (on_command (server_of cmds))
  /\ returns (on_error (server_of cmds))
  /\ returns (huh (server_of cmds)).
Proof.
  split; [|split].
  - intros s. eexists. eexists. reflexivity.
  - intros [c w]. cbn. unfold Server_on_error, on_world. cbn [fst snd].
    destruct (connection c); eexists; eexists; reflexivity.
  - intros [c w]. cbn. unfold Server_huh, on_world. cbn [fst snd].
    destruct (connection c); eexists; eexists; reflexivity.
Defined.

(** The commands [skipping], [failing], [plain] and the line [go]: the
    first asks to be skipped, the second fails, and [handle_line]
    returns. *)
Lemma handle_line_contains_faults_witness :
  fst (Server_handle_line pattern_search
         (server_of [skipping_command; failing_command; plain_command])
         (Some 1) (lit "go") []) = Ok tt.
Proof.
  apply (handle_line_contains_faults World Pattern str pattern_search).
  - apply (server_of_hooks_return _).
  - apply (server_of_hooks_return _).
  - apply (server_of_hooks_return _).
  - repeat constructor; try discriminate.
Defined.



(** The commands [bad], [skipping] and the line [go]: [bad] does not
    match and [skipping] asks to be skipped, so that [huh] is called
    and its message sent. *)
Lemma declined_by_all_falls_back_witness :
  let srv := server_of [bad_command; skipping_command] in
  let out := Server_handle_line pattern_search srv (Some 1) (lit "go") [] in
  huh_calls (trace (snd out))
  = [mkCaller (Some 1) (Some (lit "go")) None None]
  /\ on_error_calls (trace (snd out)) = []
  /\ searched (trace (snd out)) = [0; 1]
  /\ world (snd out)
     = [Did "skipping"; Sent 1 (ascii_bytes "I don't understand that.")].
Proof.
  intros srv out.
  destruct (declined_by_all_falls_back World Pattern str pattern_search
              srv (Some 1) (lit "go") []
              (snd (gate srv (start (Some 1) (lit "go") [])))
              (mkDState
                 (mkCaller (Some 1) (Some (lit "go")) (Some (lit "go")) None)
                 [Did "skipping"]
                 [EvOnCommand (Caller_new (Some 1) (Some (lit "go")));
                  EvSearch 0; EvSearch 1;
                  EvFunc 1 (mkCaller (Some 1) (Some (lit "go"))
                              (Some (lit "go")) None)]))
    as (H & E & _ & S & _ & Wd);
    [reflexivity | reflexivity | ].
  exact (conj H (conj E (conj S Wd))).
Defined.

(** A broadcast to connections 1, 2 and 3 over a [sendLine] that fails
    for connection 2: connection 1 is sent the line, connection 3 is
    not. *)
Lemma broadcast_sends_the_same_to_all_witness :
  Server_broadcast flaky_sendLine no_percent [1; 2; 3] (lit "hello") [] [] []
  = (Raise (ExceptionOf "ConnectionLost"), [Sent 1 (ascii_bytes "hello")]).
Proof.
  exact (proj2 (broadcast_sends_the_same_to_all World flaky_sendLine
                  Empty_set no_percent [1; 2; 3] (lit "hello") [] []
                  (lit "hello") (ascii_bytes "hello") [] eq_refl eq_refl)
           [1] 2 [3] [Sent 1 (ascii_bytes "hello")]
           (ExceptionOf "ConnectionLost") [Sent 1 (ascii_bytes "hello")]
           eq_refl eq_refl eq_refl).
Defined.

(** A text that holds the surrogate [U+D800]. *)
Lemma unencodable_text_is_not_sent_witness :
  Server_notify wire_sendLine no_percent (Some 1) [104; 0xD800]%N [] [] []
  = (Raise UnicodeEncodeError, [])
  /\ Server_broadcast wire_sendLine no_percent [1; 2] [104; 0xD800]%N [] [] []
     = (Raise UnicodeEncodeError, []).
Proof.
  destruct (unencodable_text_is_not_sent World wire_sendLine Empty_set
              no_percent [104; 0xD800]%N [] eq_refl) as (N & _ & B & _).
  exact (conj (N 1) (B 1 [2])).
Defined.

(** A text of one, two, three and four bytes per character, sent and
    read back by the connected test connection. *)
Lemma notified_text_is_received_unchanged_witness :
  exists payload,
    (forall con w,
       Server_notify wire_sendLine no_percent (Some con)
         [104; 233; 8364; 128512]%N [] [] w
       = wire_sendLine con payload w)
    /\ Protocol_lineReceived the_parsers payload connected
       = (pemit (EvHandleLine 0 [104; 233; 8364; 128512]%N) ;;;
          pcall (handle_line (the_parsers 0) [104; 233; 8364; 128512]%N))
           connected.
Proof.
  destruct (notified_text_is_received_unchanged World wire_sendLine
              Empty_set no_percent the_parsers
              [104; 233; 8364; 128512]%N eq_refl) as (payload & N & R).
  exists payload. split; [exact N|].
  exact (R connected 0 eq_refl eq_refl).
Defined.

(** The line [good] on a connection whose error handler is [strict]. *)
Lemma ascii_line_is_read_under_every_policy_witness :
  Protocol_lineReceived the_parsers (ascii_bytes "good") strict_connected
  = (pemit (EvHandleLine 0 (lit "good")) ;;;
     pcall (handle_line (the_parsers 0) (lit "good"))) strict_connected.
Proof.
  exact (ascii_line_is_read_under_every_policy World the_parsers
           (ascii_bytes "good") strict_connected 0 eq_refl eq_refl).
Defined.

(** Parsers whose detach hook raises: the connected test connection
    keeps parser 0 when parser 3 is set. *)
Lemma raising_detach_hook_stops_the_swap_witness :
  let out := Protocol_set_parser vetoing_parsers
               (server_with_default (Some 0)) (Some 3) connected in
  fst out = Raise (ExceptionOf "RuntimeError")
  /\ Protocol_parser (self (snd out)) = Some 0
  /\ ptrace (snd out) = ptrace connected ++ [EvDetach 0 (Some 3)].
Proof.
  intros out. subst out.
  rewrite (raising_detach_hook_stops_the_swap World Pattern str
             vetoing_parsers (server_with_default (Some 0)) (Some 3)
             connected 0 (ExceptionOf "RuntimeError") (self connected)
             (pworld connected ++ [Did "detach"]) eq_refl eq_refl).
  repeat split.
Defined.

(** Parsers whose attach hook raises: parser 3 is the parser of the
    connected test connection after the failed call. *)
Lemma raising_attach_hook_keeps_new_parser_witness :
  let out := Protocol_set_parser refusing_parsers
               (server_with_default (Some 0)) (Some 3) connected in
  fst out = Raise (ExceptionOf "RuntimeError")
  /\ Protocol_parser (self (snd out)) = Some 3
  /\ ptrace (snd out)
     = ptrace connected ++ [EvDetach 0 (Some 3)] ++ [EvAttach 3 (Some 0)].
Proof.
  apply (raising_attach_hook_keeps_new_parser World Pattern str
           refusing_parsers (server_with_default (Some 0)) connected 3
           (ExceptionOf "RuntimeError")
           (pworld connected ++ [Did "detach"; Did "attach"])).
  - intros q ctx p w. split; reflexivity.
  - reflexivity.
Defined.

(** The connected test connection on a server of the class [Server]:
    setting the parser to [None] fails and parser 0 stays. *)
Lemma set_parser_None_without_default_witness :
  let out := Protocol_set_parser the_parsers
               (server_of [good_command; bad_command]) None connected in
  fst out = Raise AttributeError
  /\ self (snd out) = self connected
  /\ ptrace (snd out) = ptrace connected ++ [EvDetach 0 None].
Proof.
  exact (set_parser_None_without_default World Pattern str the_parsers
           (server_of [good_command; bad_command]) connected eq_refl
           (proj1 the_parsers_are_quiet)).
Defined.

(** The test connection lost on a server whose list holds connection 5
    before it, which has the same host, port and parser: connection 5
    is the one that goes, and the test connection stays in the list. *)
Lemma connectionLost_removes_one_registration_witness :
  connections
    (snd (Protocol_connectionLost the_Parser_eq the_peers
            (server_with_default (Some 0)) (lit "bye")
            (mkPState (self connected) [6; 5; 1] [] [])))
  = [6; 1].
Proof.
  refine (proj1 (connectionLost_removes_one_registration World Pattern str
                   the_Parser_eq the_peers (server_with_default (Some 0))
                   (lit "bye") (mkPState (self connected) [6; 5; 1] [] []))
            [6] 5 [1] eq_refl eq_refl _).
  intros y [<-|[]]. reflexivity.
Defined.


(** The test connection lost before it was made, on a server that
    lists it. *)
Lemma connectionLost_before_Made_raises_witness :
  Protocol_connectionLost the_Parser_eq the_peers
    (server_with_default (Some 0)) (lit "bye")
    (mkPState test_protocol [6; 1; 7] [] [])
  = (Raise AttributeError, mkPState test_protocol [6; 7] [] []).
Proof.
  exact (connectionLost_before_Made_raises World Pattern str the_Parser_eq
           the_peers (server_with_default (Some 0)) (lit "bye")
           (mkPState test_protocol [6; 1; 7] [] []) eq_refl).
Defined.
